(** * QR Encoder: the request mailbox, the worker loop and the option widgets

    A shallow embedding of [main.pyw]: [WorkerThread] (the single-slot
    mailbox [set_parameters]/[get_parameters] and the [run] loop) and the
    parts of [MainWindow] that build the parameter tuple ([init_ui],
    [get_version], [request_new_qr_code]).

    Two threads matter: the GUI thread, which runs the slots of [MainWindow]
    and therefore every call of [set_parameters], and the worker thread,
    which runs [WorkerThread.run].  Each thread is a program counter over
    the statements of the source; a step of the system is one statement of
    one thread, so every interleaving the Python program can show is a path
    of the step relation. *)

From Stdlib Require Import String List ZArith Lia Bool Arith.
Import ListNotations.
Open Scope string_scope.
Open Scope list_scope.

(** ** Python values that cross the worker boundary *)

(** The tuple [(text, error, version, mode, scale)] built by
    [request_new_qr_code] and unpacked by [run].  [None] is Python's [None]:
    the user data of the "Automatic" mode item and the result of
    [get_version] for the special value 0. *)
Record Parameters : Type := mkParameters {
  text : string;
  error : option string;
  version : option Z;
  mode : option string;
  scale : Z
}.

(** Exceptions, as far as [except ValueError] tells them apart.
    [ValueError] stands for the class and its subclasses; [OtherError] for a
    class outside it. *)
Inductive exception : Type :=
| ValueError (msg : string)
| TypeError (msg : string)
| OtherError (cls msg : string).

(** [str(e)] *)
Definition str (e : exception) : string :=
  match e with
  | ValueError msg => msg
  | TypeError msg => msg
  | OtherError _ msg => msg
  end.

Definition is_ValueError (e : exception) : bool :=
  match e with
  | ValueError _ => true
  | _ => false
  end.

Inductive thread : Type := GuiThread | Worker.

(** What the unpacking [text, error, version, mode, scale = None] raises. *)
Definition unpack_None : exception :=
  TypeError "cannot unpack non-iterable NoneType object".

(** ** The option widgets of [MainWindow]

    Qt's widgets are an external library; only what [init_ui] and the slots
    rely on is kept: a spin box holds a value clamped to its range, a combo
    box holds (text, userData) items and a current index. *)

Definition bound (lo v hi : Z) : Z := Z.max lo (Z.min hi v).

Record QSpinBox : Type := mkQSpinBox {
  minimum : Z;
  maximum : Z;
  value : Z
}.

(** [QSpinBox(self)]: range 0..99, value 0. *)
Definition QSpinBox_new : QSpinBox := mkQSpinBox 0 99 0.

Definition setRange (lo hi : Z) (b : QSpinBox) : QSpinBox :=
  let hi' := Z.max lo hi in
  mkQSpinBox lo hi' (bound lo (value b) hi').

Definition setMinimum (m : Z) (b : QSpinBox) : QSpinBox :=
  setRange m (Z.max m (maximum b)) b.

Definition setMaximum (m : Z) (b : QSpinBox) : QSpinBox :=
  setRange (Z.min (minimum b) m) m b.

Definition setValue (v : Z) (b : QSpinBox) : QSpinBox :=
  mkQSpinBox (minimum b) (maximum b) (bound (minimum b) v (maximum b)).

Record QComboBox : Type := mkQComboBox {
  items : list (string * option string);
  currentIndex : nat
}.

Definition QComboBox_new : QComboBox := mkQComboBox [] 0.

(** [addItem(text, userData)]: appended; the first item becomes current. *)
Definition addItem (label : string) (userData : option string)
  (b : QComboBox) : QComboBox :=
  mkQComboBox (items b ++ [(label, userData)]) (currentIndex b).

Definition count (b : QComboBox) : nat := length (items b).

(** [currentData()]: the user data of the current item, [None] when there
    is no such item or its data is [None]. *)
Definition currentData (b : QComboBox) : option string :=
  match nth_error (items b) (currentIndex b) with
  | Some (_, userData) => userData
  | None => None
  end.

Definition currentText (b : QComboBox) : string :=
  match nth_error (items b) (currentIndex b) with
  | Some (label, _) => label
  | None => ""
  end.

(** The user picks the item at index [i]; an index outside the list cannot
    be picked. *)
Definition setCurrentIndex (i : nat) (b : QComboBox) : QComboBox :=
  if Nat.ltb i (count b) then mkQComboBox (items b) i else b.

(** The widgets [request_new_qr_code] reads. *)
Record MainWindow : Type := mkMainWindow {
  line_edit : string;
  error_correction_box : QComboBox;
  version_box : QSpinBox;
  mode_box : QComboBox;
  scale_box : QSpinBox
}.

(** [MainWindow.init_ui], lines 85 to 109 of [main.pyw]. *)
Definition init_ui : MainWindow :=
  mkMainWindow
    ""
    (addItem "Low (7%)" (Some "L")
      (addItem "Medium (15%)" (Some "M")
        (addItem "Quartile (25%)" (Some "Q")
          (addItem "High (30%)" (Some "H") QComboBox_new))))
    (setMaximum 40 (setMinimum 0 QSpinBox_new))
    (addItem "Binary" (Some "binary")
      (addItem "Alphanumeric" (Some "alphanumeric")
        (addItem "Numeric" (Some "numeric")
          (addItem "Automatic" None QComboBox_new))))
    (setValue 5 (setMaximum 10 (setMinimum 1 QSpinBox_new))).

(** The mode box of the earlier variants of the program ([qrgui.pyw]),
    which ends with one more item. *)
Definition qrgui_mode_box : QComboBox :=
  addItem "Kanji" (Some "kanji") (mode_box init_ui).

(** [MainWindow.get_version] *)
Definition get_version (w : MainWindow) : option Z :=
  let v := value (version_box w) in
  if Z.eqb v 0 then None else Some v.

(** The tuple [request_new_qr_code] hands to [set_parameters]. *)
Definition request_new_qr_code (w : MainWindow) : Parameters :=
  mkParameters
    (line_edit w)
    (currentData (error_correction_box w))
    (get_version w)
    (currentData (mode_box w))
    (value (scale_box w)).

(** What the user can do to the widgets connected to
    [request_new_qr_code]. *)
Inductive ui_event : Type :=
| textEdited (t : string)
| error_correction_selected (i : nat)
| version_entered (v : Z)
| mode_selected (i : nat)
| scale_entered (v : Z).

Definition apply_event (e : ui_event) (w : MainWindow) : MainWindow :=
  match e with
  | textEdited t =>
      mkMainWindow t (error_correction_box w) (version_box w) (mode_box w)
                   (scale_box w)
  | error_correction_selected i =>
      mkMainWindow (line_edit w) (setCurrentIndex i (error_correction_box w))
                   (version_box w) (mode_box w) (scale_box w)
  | version_entered v =>
      mkMainWindow (line_edit w) (error_correction_box w)
                   (setValue v (version_box w)) (mode_box w) (scale_box w)
  | mode_selected i =>
      mkMainWindow (line_edit w) (error_correction_box w) (version_box w)
                   (setCurrentIndex i (mode_box w)) (scale_box w)
  | scale_entered v =>
      mkMainWindow (line_edit w) (error_correction_box w) (version_box w)
                   (mode_box w) (setValue v (scale_box w))
  end.

(** Whether the widget's signal fires: [textEdited] on every edit of the
    user, [currentTextChanged] and [valueChanged] only when what they
    report has changed. *)
Definition signal_fires (e : ui_event) (w : MainWindow) : bool :=
  let w' := apply_event e w in
  match e with
  | textEdited _ => true
  | error_correction_selected _ =>
      negb (String.eqb (currentText (error_correction_box w'))
                       (currentText (error_correction_box w)))
  | version_entered _ =>
      negb (Z.eqb (value (version_box w')) (value (version_box w)))
  | mode_selected _ =>
      negb (String.eqb (currentText (mode_box w')) (currentText (mode_box w)))
  | scale_entered _ =>
      negb (Z.eqb (value (scale_box w')) (value (scale_box w)))
  end.

(** ** What the widgets can produce *)

(** The user data of the items [init_ui] puts in the mode box. *)
Definition offered_modes : list (option string) :=
  map snd (items (mode_box init_ui)).

Definition offered_errors : list (option string) :=
  None :: map snd (items (error_correction_box init_ui)).

Definition valid_version (v : option Z) : Prop :=
  match v with
  | None => True
  | Some n => (1 <= n <= 40)%Z
  end.

(** A tuple as the widgets of [init_ui] can make it. *)
Definition well_formed (p : Parameters) : Prop :=
  In (error p) offered_errors
  /\ valid_version (version p)
  /\ In (mode p) offered_modes
  /\ (1 <= scale p <= 10)%Z.

(** What [init_ui] fixes once and for all, and user events keep. *)
Definition ui_inv (w : MainWindow) : Prop :=
  items (error_correction_box w) = items (error_correction_box init_ui)
  /\ items (mode_box w) = items (mode_box init_ui)
  /\ minimum (version_box w) = 0%Z /\ maximum (version_box w) = 40%Z
  /\ (0 <= value (version_box w) <= 40)%Z
  /\ minimum (scale_box w) = 1%Z /\ maximum (scale_box w) = 10%Z
  /\ (1 <= value (scale_box w) <= 10)%Z.

(** The user data of the items [init_ui] puts in the error-correction
    box, and what user events keep of that box: its items, and a current
    index that points at one of them. *)
Definition error_levels : list (option string) :=
  map snd (items (error_correction_box init_ui)).

Definition error_box_inv (w : MainWindow) : Prop :=
  items (error_correction_box w) = items (error_correction_box init_ui)
  /\ currentIndex (error_correction_box w)
     < count (error_correction_box init_ui).

(** One move of the application: a statement of either thread, or a user
    event taken from the event loop. *)
Inductive action : Type :=
| ActGui                   (* the GUI thread runs one statement *)
| ActWorker                (* the worker runs one statement *)
| ActUser (e : ui_event).  (* the event loop handles a user event *)

(** ** The external collaborators

    [pyqrcode.create], [QRCode.png] into a [BytesIO] buffer, and
    [QImage.fromData].  They are opaque to the program; either of the first
    two may raise. *)
Class Encoder : Type := {
  QRCode : Type;
  QImage : Type;
  pyqrcode_create :
    string -> option string -> option Z -> option string -> QRCode + exception;
  png : QRCode -> Z -> list Byte.byte + exception;
  QImage_fromData : list Byte.byte -> QImage
}.

(** ** A stand-in encoder and a schedule

    A small encoder to run the model on concrete inputs: a symbol is the
    text itself, version 1 holds seven characters and any other choice
    2953, a longer text is refused with a [ValueError]; the image is one
    zero byte per unit of scale. *)

Definition sample_capacity (v : option Z) : nat :=
  match v with
  | Some 1%Z => 7
  | _ => 2953
  end.

Definition sample_create (t : string) (e : option string) (v : option Z)
  (m : option string) : string + exception :=
  if Nat.ltb (sample_capacity v) (String.length t)
  then inr (ValueError "The data will not fit inside the given version")
  else inl t.

Definition sample_png (qr : string) (sc : Z) : list Byte.byte + exception :=
  inl (repeat Byte.x00 (Z.to_nat sc)).

Definition sample_encoder : Encoder :=
  {| QRCode := string;
     QImage := list Byte.byte;
     pyqrcode_create := sample_create;
     png := sample_png;
     QImage_fromData := fun buffer => buffer |}.

(** An encoder that breaks its contract: whatever it is given, it raises
    an exception that is not a [ValueError]. *)
Definition encoder_failure : exception :=
  OtherError "RuntimeError" "encoder failure".

Definition crashing_encoder : Encoder :=
  {| QRCode := string;
     QImage := list Byte.byte;
     pyqrcode_create := fun _ _ _ _ => inr encoder_failure;
     png := sample_png;
     QImage_fromData := fun buffer => buffer |}.

(** The tuple of the freshly built window, and the one after the user has
    typed "A". *)
Definition initial_request : Parameters := request_new_qr_code init_ui.

Definition typed_A : Parameters :=
  request_new_qr_code (apply_event (textEdited "A") init_ui).

(** A tuple the stand-in encoder refuses. *)
Definition too_long : Parameters :=
  mkParameters "HELLO WORLD" (Some "H") (Some 1%Z) None 5.

(** The startup submission completes and the worker passes the semaphore;
    before the worker locks the mutex the user types "A" and the GUI
    thread gets as far as the write of the new tuple. *)
Definition race_overwrite : list action :=
  repeat ActGui 5 ++ [ActWorker; ActUser (textEdited "A"); ActGui].

(** The GUI thread writes the slot, sees no resource in the semaphore and
    releases it. *)
Definition race_release : list action := repeat ActGui 4.

(** The worker finishes its [get_parameters]. *)
Definition race_take : list action := repeat ActWorker 4.

(** The worker runs the iteration, then [get_parameters] again and the
    unpacking of its result. *)
Definition race_next : list action := repeat ActWorker 10.

Definition race_schedule : list action :=
  race_overwrite ++ race_release ++ race_take ++ race_next.

(** A startup in which nothing races: the submission completes, then the
    worker takes it and gets as far as the call of the encoder. *)
Definition calm_schedule : list action :=
  repeat ActGui 5 ++ repeat ActWorker 6.

(** What the specification lists as the values of the mode field. *)
Definition spec_modes : list (option string) :=
  [Some "numeric"; Some "alphanumeric"; Some "binary"; Some "kanji"; None].

(** The mode box [b] lets the user pick an item whose user data is [m]. *)
Definition offers (b : QComboBox) (m : option string) : Prop :=
  exists i, i < count b /\ currentData (setCurrentIndex i b) = m.

Section Pipeline.

Context {E : Encoder}.

(** The two signals of [WorkerThread]. *)
Inductive signal : Type :=
| resultReady (image : QImage)
| errorOccurred (message : string).

(** Observable actions of the worker, recorded in program order. *)
Inductive event : Type :=
| EvTake (ret : option Parameters)   (* get_parameters returned ret *)
| EvCreate (p : Parameters)          (* pyqrcode.create called on p *)
| EvPng (sc : Z)                     (* qr.png called with scale sc *)
| EvEmit (sg : signal).              (* a signal was emitted *)

(** *** Program counters *)

(** The GUI thread inside [set_parameters(parameters)]. *)
Inductive gui_pc : Type :=
| G_idle                       (* in the event loop *)
| G_lock (p : Parameters)      (* with QMutexLocker(self.mutex): *)
| G_write (p : Parameters)     (*   self.parameters = parameters *)
| G_check                      (*   if self.semaphore.available() == 0: *)
| G_release                    (*     self.semaphore.release(1) *)
| G_unlock.                    (* leave the with block *)

(** The worker thread inside [run]. *)
Inductive worker_pc : Type :=
| W_acquire                             (* self.semaphore.acquire(1) *)
| W_lock                                (* with QMutexLocker(self.mutex): *)
| W_read                                (*   parameters = self.parameters *)
| W_clear (local : option Parameters)   (*   self.parameters = None *)
| W_return (local : option Parameters)  (*   return parameters *)
| W_unpack (ret : option Parameters)    (* text, ..., scale = <ret> *)
| W_create (p : Parameters)             (* qr = pyqrcode.create(...) *)
| W_png (p : Parameters) (qr : QRCode)  (* qr.png(buffer, scale=scale) *)
| W_emit (p : Parameters) (image : QImage) (* self.resultReady.emit(image) *)
| W_handler (p : Parameters) (msg : string) (* self.errorOccurred.emit(str(e)) *)
| W_dead (e : exception).               (* run left by an uncaught e *)

(** *** Shared state *)

Record state : Type := mkState {
  gpc : gui_pc;
  wpc : worker_pc;
  parameters : option Parameters;   (* self.parameters *)
  semaphore : nat;                  (* self.semaphore.available() *)
  mutex : option thread;            (* holder of self.mutex *)
  trace : list event                (* history of the worker's actions *)
}.

(** [WorkerThread.__init__] followed by [start()]: [QSemaphore()] has no
    resource, the slot is [None], the worker is at the top of its loop. *)
Definition init : state :=
  mkState G_idle W_acquire None 0 None [].

Definition set_gpc (s : state) (pc : gui_pc) : state :=
  mkState pc (wpc s) (parameters s) (semaphore s) (mutex s) (trace s).
Definition set_wpc (s : state) (pc : worker_pc) : state :=
  mkState (gpc s) pc (parameters s) (semaphore s) (mutex s) (trace s).
Definition set_slot (s : state) (v : option Parameters) : state :=
  mkState (gpc s) (wpc s) v (semaphore s) (mutex s) (trace s).
Definition set_semaphore (s : state) (n : nat) : state :=
  mkState (gpc s) (wpc s) (parameters s) n (mutex s) (trace s).
Definition set_mutex (s : state) (m : option thread) : state :=
  mkState (gpc s) (wpc s) (parameters s) (semaphore s) m (trace s).
Definition log (s : state) (ev : event) : state :=
  mkState (gpc s) (wpc s) (parameters s) (semaphore s) (mutex s)
          (trace s ++ [ev]).

Definition mutex_free (s : state) : bool :=
  match mutex s with None => true | Some _ => false end.

(** *** [set_parameters], statement by statement *)

(** The GUI thread enters [set_parameters(p)]; only possible from the
    event loop, since slots run to completion on the GUI thread. *)
Definition call_set_parameters (p : Parameters) (s : state) : option state :=
  match gpc s with
  | G_idle => Some (set_gpc s (G_lock p))
  | _ => None
  end.

(** One statement of the GUI thread; [None] when it has nothing to run or
    is blocked on the mutex. *)
Definition gui_step (s : state) : option state :=
  match gpc s with
  | G_idle => None
  | G_lock p =>
      if mutex_free s
      then Some (set_gpc (set_mutex s (Some GuiThread)) (G_write p))
      else None
  | G_write p => Some (set_gpc (set_slot s (Some p)) G_check)
  | G_check =>
      if Nat.eqb (semaphore s) 0
      then Some (set_gpc s G_release)
      else Some (set_gpc s G_unlock)
  | G_release => Some (set_gpc (set_semaphore s (semaphore s + 1)) G_unlock)
  | G_unlock => Some (set_gpc (set_mutex s None) G_idle)
  end.

(** *** [run] and [get_parameters], statement by statement *)

(** An exception raised inside the [try] body: [except ValueError] takes
    it to the handler, anything else leaves [run]. *)
Definition raise_in_try (p : Parameters) (e : exception) : worker_pc :=
  match e with
  | ValueError msg => W_handler p (str e)
  | _ => W_dead e
  end.

(** One statement of the worker; [None] when it is blocked on the
    semaphore or the mutex, or has terminated. *)
Definition worker_step (s : state) : option state :=
  match wpc s with
  | W_acquire =>
      if Nat.ltb 0 (semaphore s)
      then Some (set_wpc (set_semaphore s (semaphore s - 1)) W_lock)
      else None
  | W_lock =>
      if mutex_free s
      then Some (set_wpc (set_mutex s (Some Worker)) W_read)
      else None
  | W_read => Some (set_wpc s (W_clear (parameters s)))
  | W_clear local => Some (set_wpc (set_slot s None) (W_return local))
  | W_return local =>
      Some (log (set_wpc (set_mutex s None) (W_unpack local)) (EvTake local))
  | W_unpack None => Some (set_wpc s (W_dead unpack_None))
  | W_unpack (Some p) => Some (set_wpc s (W_create p))
  | W_create p =>
      let s' := log s (EvCreate p) in
      match pyqrcode_create (text p) (error p) (version p) (mode p) with
      | inl qr => Some (set_wpc s' (W_png p qr))
      | inr e => Some (set_wpc s' (raise_in_try p e))
      end
  | W_png p qr =>
      let s' := log s (EvPng (scale p)) in
      match png qr (scale p) with
      | inl buffer => Some (set_wpc s' (W_emit p (QImage_fromData buffer)))
      | inr e => Some (set_wpc s' (raise_in_try p e))
      end
  | W_emit p image =>
      Some (set_wpc (log s (EvEmit (resultReady image))) W_acquire)
  | W_handler p msg =>
      Some (set_wpc (log s (EvEmit (errorOccurred msg))) W_acquire)
  | W_dead _ => None
  end.

(** *** The step relation *)

(** A step without a new submission: one statement of either thread. *)
Inductive internal_step (s s' : state) : Prop :=
| step_gui : gui_step s = Some s' -> internal_step s s'
| step_worker : worker_step s = Some s' -> internal_step s s'.

(** Any step: an internal one, or the GUI thread starting a submission. *)
Inductive step (s s' : state) : Prop :=
| step_internal : internal_step s s' -> step s s'
| step_submit (p : Parameters) : call_set_parameters p s = Some s' -> step s s'.

Inductive reachable_from (s0 : state) : state -> Prop :=
| reach_refl : reachable_from s0 s0
| reach_step s s' : reachable_from s0 s -> step s s' -> reachable_from s0 s'.

Definition reachable : state -> Prop := reachable_from init.

(** *** Whole calls

    A call of [set_parameters] or [get_parameters] run without the other
    thread taking a step in between. *)

Fixpoint gui_run (fuel : nat) (s : state) : option state :=
  match gpc s with
  | G_idle => Some s
  | _ =>
      match fuel with
      | O => None
      | S fuel' =>
          match gui_step s with
          | Some s' => gui_run fuel' s'
          | None => None
          end
      end
  end.

(** [set_parameters(p)] from call to return; [None] when the GUI thread is
    not free to call it or would block on the mutex. *)
Definition set_parameters (p : Parameters) (s : state) : option state :=
  match call_set_parameters p s with
  | Some s' => gui_run 5 s'
  | None => None
  end.

Fixpoint submit_all (ps : list Parameters) (s : state) : option state :=
  match ps with
  | [] => Some s
  | p :: ps' =>
      match set_parameters p s with
      | Some s' => submit_all ps' s'
      | None => None
      end
  end.

Fixpoint worker_steps (n : nat) (s : state) : option state :=
  match n with
  | O => Some s
  | S n' =>
      match worker_step s with
      | Some s' => worker_steps n' s'
      | None => None
      end
  end.

(** [get_parameters()] from call to return: the returned value and the
    state it leaves; [None] when the worker is not about to call it or
    blocks inside. *)
Definition get_parameters (s : state) : option (option Parameters * state) :=
  match wpc s with
  | W_acquire =>
      match worker_steps 5 s with
      | Some s' =>
          match wpc s' with
          | W_unpack ret => Some (ret, s')
          | _ => None
          end
      | None => None
      end
  | _ => None
  end.

(** *** Reading the trace *)

(** The signals emitted so far. *)
Definition delivered (s : state) : list signal :=
  flat_map (fun ev => match ev with EvEmit sg => [sg] | _ => [] end) (trace s).

(** The tuples [get_parameters] has returned so far. *)
Definition consumed (s : state) : list Parameters :=
  flat_map (fun ev => match ev with EvTake (Some p) => [p] | _ => [] end)
           (trace s).

(** The tuples [pyqrcode.create] has been called on so far. *)
Definition encoded (s : state) : list Parameters :=
  flat_map (fun ev => match ev with EvCreate p => [p] | _ => [] end) (trace s).

(** The scales [png] has been called with so far. *)
Definition rasterized (s : state) : list Z :=
  flat_map (fun ev => match ev with EvPng sc => [sc] | _ => [] end) (trace s).

(** The tuple the worker is working on, between the return of
    [get_parameters] and the emission of a signal. *)
Definition in_flight (pc : worker_pc) : list Parameters :=
  match pc with
  | W_unpack (Some p) | W_create p | W_png p _ | W_emit p _ | W_handler p _ =>
      [p]
  | _ => []
  end.

(** What the body of the [try] computes on [p]: the image to emit, or the
    exception raised on the way. *)
Definition process (p : Parameters) : QImage + exception :=
  match pyqrcode_create (text p) (error p) (version p) (mode p) with
  | inl qr =>
      match png qr (scale p) with
      | inl buffer => inl (QImage_fromData buffer)
      | inr e => inr e
      end
  | inr e => inr e
  end.

(** The signal one iteration on [p] emits, if any. *)
Definition outcome (p : Parameters) : option signal :=
  match process p with
  | inl image => Some (resultReady image)
  | inr (ValueError msg) => Some (errorOccurred msg)
  | inr _ => None
  end.

Definition outcomes (ps : list Parameters) : list signal :=
  flat_map (fun p => match outcome p with Some sg => [sg] | None => [] end) ps.

(** *** Who may hold the mutex *)

Definition gui_in_critical (pc : gui_pc) : bool :=
  match pc with
  | G_write _ | G_check | G_release | G_unlock => true
  | _ => false
  end.

Definition worker_in_critical (pc : worker_pc) : bool :=
  match pc with
  | W_read | W_clear _ | W_return _ => true
  | _ => false
  end.

(** The worker is calling the encoder, the rasterizer, or emitting. *)
Definition worker_encoding (pc : worker_pc) : bool :=
  match pc with
  | W_create _ | W_png _ _ | W_emit _ _ | W_handler _ _ => true
  | _ => false
  end.

(** *** Quiescence *)

Definition quiescent (s : state) : Prop :=
  gui_step s = None /\ worker_step s = None.

(** On every path of internal steps [Q] holds until [P] does, and [P] is
    reached: the path cannot stop or go on forever before it. *)
Inductive until (Q P : state -> Prop) (s : state) : Prop :=
| until_now : P s -> until Q P s
| until_later :
    Q s ->
    (exists s', internal_step s s') ->
    (forall s', internal_step s s' -> until Q P s') ->
    until Q P s.

(** *** Delivery as the specification words it

    In every reachable state each consumed tuple whose iteration is over
    has its one signal, whatever the encoder did on it. *)
Definition every_take_answered : Prop :=
  forall s,
    reachable s ->
    exists done,
      consumed s = done ++ in_flight (wpc s)
      /\ map Some (delivered s) = map outcome done.

(** A single submission of [p] on a fresh mailbox is always answered by
    exactly one signal, whatever the encoder does on [p]. *)
Definition lone_request_answered (p : Parameters) : Prop :=
  exists sg s0,
    call_set_parameters p init = Some s0
    /\ until (fun s => delivered s = [])
             (fun s => delivered s = [sg] /\ consumed s = [p] /\ quiescent s)
             s0.

(** *** The application: widgets and pipeline together *)

Definition app_state : Type := MainWindow * state.

Definition with_window (w : MainWindow) (o : option state) : option app_state :=
  match o with
  | Some s => Some (w, s)
  | None => None
  end.

Definition perform (a : action) (st : app_state) : option app_state :=
  let (w, s) := st in
  match a with
  | ActGui => with_window w (gui_step s)
  | ActWorker => with_window w (worker_step s)
  | ActUser e =>
      match gpc s with
      | G_idle =>
          let w' := apply_event e w in
          if signal_fires e w
          then with_window w' (call_set_parameters (request_new_qr_code w') s)
          else Some (w', s)
      | _ => None
      end
  end.

Fixpoint run_schedule (acts : list action) (st : app_state) : option app_state :=
  match acts with
  | [] => Some st
  | a :: acts' =>
      match perform a st with
      | Some st' => run_schedule acts' st'
      | None => None
      end
  end.

(** [MainWindow.__init__]: the worker is started, the widgets are built,
    and [request_new_qr_code()] is about to call [set_parameters]. *)
Definition app_init : app_state :=
  (init_ui, set_gpc init (G_lock (request_new_qr_code init_ui))).

Inductive app_reachable : app_state -> Prop :=
| app_reach_init : app_reachable app_init
| app_reach_step a st st' :
    app_reachable st -> perform a st = Some st' -> app_reachable st'.

(** What a schedule leads to, as far as the mailbox goes: both program
    counters, the slot and the semaphore. *)
Definition observe (st : option app_state)
  : option (gui_pc * worker_pc * option Parameters * nat) :=
  match st with
  | Some (_, s) => Some (gpc s, wpc s, parameters s, semaphore s)
  | None => None
  end.

Definition observe_trace (st : option app_state) : option (list event) :=
  match st with
  | Some (_, s) => Some (trace s)
  | None => None
  end.

(** The fields of the state both threads can see. *)
Definition same_shared (s s' : state) : Prop :=
  gpc s' = gpc s /\ parameters s' = parameters s
  /\ semaphore s' = semaphore s /\ mutex s' = mutex s.

(** What the values held at a program counter of the worker must be, given
    the tuple it is working on. *)
Definition pc_sound (pc : worker_pc) : Prop :=
  match pc with
  | W_png p qr =>
      pyqrcode_create (text p) (error p) (version p) (mode p) = inl qr
  | W_emit p image => process p = inl image
  | W_handler p msg => process p = inr (ValueError msg)
  | _ => True
  end.

(** Every consumed tuple but the one in flight has had its iteration, and
    the signals emitted are the outcomes of those iterations, in order. *)
Definition accounted (s : state) : Prop :=
  exists done,
    consumed s = done ++ in_flight (wpc s) /\ delivered s = outcomes done.

(** The exception an iteration that starts with [ret] returned by
    [get_parameters] raises, if any. *)
Definition raised (ret : option Parameters) : option exception :=
  match ret with
  | None => Some unpack_None
  | Some p =>
      match process p with
      | inl _ => None
      | inr e => Some e
      end
  end.

(** *** Where tuples sit in a state *)

Definition opt_ok (P : Parameters -> Prop) (o : option Parameters) : Prop :=
  match o with
  | Some p => P p
  | None => True
  end.

Definition gui_ok (P : Parameters -> Prop) (pc : gui_pc) : Prop :=
  match pc with
  | G_lock p | G_write p => P p
  | _ => True
  end.

Definition worker_ok (P : Parameters -> Prop) (pc : worker_pc) : Prop :=
  match pc with
  | W_clear o | W_return o | W_unpack o => opt_ok P o
  | W_create p | W_png p _ | W_emit p _ | W_handler p _ => P p
  | _ => True
  end.

Definition event_ok (P : Parameters -> Prop) (ev : event) : Prop :=
  match ev with
  | EvTake o => opt_ok P o
  | EvCreate p => P p
  | EvPng sc => exists p, P p /\ scale p = sc
  | EvEmit _ => True
  end.

(** Every tuple held anywhere in the state, or recorded in its trace,
    satisfies [P]. *)
Definition all_ok (P : Parameters -> Prop) (s : state) : Prop :=
  gui_ok P (gpc s) /\ opt_ok P (parameters s) /\ worker_ok P (wpc s)
  /\ Forall (event_ok P) (trace s).

(** The holder of the mutex as the program counters have it, and what
    holds of the mutex and the semaphore in every reachable state. *)
Definition holder (s : state) : option thread :=
  if gui_in_critical (gpc s) then Some GuiThread
  else if worker_in_critical (wpc s) then Some Worker
  else None.

Definition sync_inv (s : state) : Prop :=
  mutex s = holder s
  /\ (gui_in_critical (gpc s) && worker_in_critical (wpc s) = false)
  /\ semaphore s <= 1
  /\ (gpc s = G_release -> semaphore s = 0).

(** *** Runs that remember what was submitted *)

(** [runs subs s]: [s] is reached from the fresh mailbox, and [subs] are the
    tuples [set_parameters] has been called with on the way, oldest
    first. *)
Inductive runs : list Parameters -> state -> Prop :=
| runs_init : runs [] init
| runs_internal subs s s' :
    runs subs s -> internal_step s s' -> runs subs s'
| runs_submit subs s s' p :
    runs subs s -> call_set_parameters p s = Some s' -> runs (subs ++ [p]) s'.

(** One move of the pipeline alone, the submitted tuple being free. *)
Inductive move : Type :=
| MGui
| MWorker
| MSubmit (p : Parameters).

Definition play_move (m : move) (s : state) : option state :=
  match m with
  | MGui => gui_step s
  | MWorker => worker_step s
  | MSubmit p => call_set_parameters p s
  end.

Fixpoint play (ms : list move) (s : state) : option state :=
  match ms with
  | [] => Some s
  | m :: ms' =>
      match play_move m s with
      | Some s' => play ms' s'
      | None => None
      end
  end.

Definition submissions (ms : list move) : list Parameters :=
  flat_map (fun m => match m with MSubmit p => [p] | _ => [] end) ms.

(** [subseq l1 l2]: [l1] is [l2] with some elements left out. *)
Inductive subseq {A : Type} : list A -> list A -> Prop :=
| subseq_nil : subseq [] []
| subseq_skip x l1 l2 : subseq l1 l2 -> subseq l1 (x :: l2)
| subseq_keep x l1 l2 : subseq l1 l2 -> subseq (x :: l1) (x :: l2).

(** The tuples on their way to the worker: the one in the slot, or the one
    the worker carries out of it, and behind it the one the GUI thread is
    about to write. *)
Definition in_transit (s : state) : list Parameters :=
  match wpc s with
  | W_return (Some r) => [r]
  | _ =>
      match parameters s with
      | Some q => [q]
      | None => []
      end
  end
  ++ match gpc s with
     | G_lock p | G_write p => [p]
     | _ => []
     end.

(** Inside its critical section the worker's local is what the slot held,
    and the slot is empty once the worker has cleared it. *)
Definition handoff_inv (s : state) : Prop :=
  match wpc s with
  | W_clear l => parameters s = l
  | W_return _ => parameters s = None
  | _ => True
  end.

(** The GUI thread is between its write and its test of the semaphore. *)
Definition gui_signalling (pc : gui_pc) : bool :=
  match pc with
  | G_write _ | G_check | G_release => true
  | _ => false
  end.

(** The worker has passed the semaphore and not yet emptied the slot. *)
Definition worker_taking (pc : worker_pc) : bool :=
  match pc with
  | W_lock | W_read | W_clear _ => true
  | _ => false
  end.

(** An occupied slot has its wake-up: the GUI thread is about to test the
    semaphore, or the semaphore holds a resource, or the worker is already
    on its way to the slot. *)
Definition wake_inv (s : state) : Prop :=
  parameters s = None
  \/ gui_signalling (gpc s) = true
  \/ 1 <= semaphore s
  \/ worker_taking (wpc s) = true.

(** [p] is where the most recent submission must be: with the GUI thread,
    in the slot, with the worker on its way out of the slot, or at the end
    of what has been consumed. *)
Definition latest (p : Parameters) (s : state) : Prop :=
  match gpc s with
  | G_lock q | G_write q => q = p
  | _ =>
      match wpc s with
      | W_return l =>
          l = Some p \/ (l = None /\ exists done, consumed s = done ++ [p])
      | _ =>
          parameters s = Some p
          \/ (parameters s = None /\ exists done, consumed s = done ++ [p])
      end
  end.

(** The consumed tuple [pyqrcode.create] has not been called on yet. *)
Definition awaiting_encoder (pc : worker_pc) : list Parameters :=
  match pc with
  | W_unpack (Some p) | W_create p => [p]
  | _ => []
  end.

(** [pyqrcode.create] returns a symbol on [p]. *)
Definition accepted (p : Parameters) : bool :=
  match pyqrcode_create (text p) (error p) (version p) (mode p) with
  | inl _ => true
  | inr _ => false
  end.

(** The scale of the symbol [png] has not been called on yet. *)
Definition awaiting_png (pc : worker_pc) : list Z :=
  match pc with
  | W_png p _ => [scale p]
  | _ => []
  end.

(** What the trace must hold when the worker unpacks, and what must have
    happened when it has left [run]. *)
Definition death_inv (s : state) : Prop :=
  match wpc s with
  | W_unpack ret => In (EvTake ret) (trace s)
  | W_dead e =>
      is_ValueError e = false
      /\ ((e = unpack_None /\ In (EvTake None) (trace s))
          \/ exists p, In p (consumed s) /\ process p = inr e)
  | _ => True
  end.

(** *** Runs without the race

    A step in which the GUI thread does not run while the worker stands
    between its [acquire] and its lock: there the next statement is the
    worker's. *)
Definition calm_step (s s' : state) : Prop :=
  step s s' /\ (wpc s = W_lock -> worker_step s = Some s').

Inductive calm_reachable : state -> Prop :=
| calm_init : calm_reachable init
| calm_next s s' : calm_reachable s -> calm_step s s' -> calm_reachable s'.

(** What such runs keep: a resource in the semaphore means an occupied
    slot; the worker on its way to the slot has emptied the semaphore and
    will find the slot occupied; the GUI thread tests the semaphore over
    the tuple it wrote; and no take has returned [None]. *)
Definition calm_inv (s : state) : Prop :=
  (1 <= semaphore s -> parameters s <> None)
  /\ (worker_taking (wpc s) = true -> semaphore s = 0)
  /\ (wpc s = W_lock \/ wpc s = W_read -> parameters s <> None)
  /\ (gpc s = G_check \/ gpc s = G_release -> parameters s <> None)
  /\ match wpc s with
     | W_clear l | W_return l | W_unpack l => l <> None
     | _ => True
     end
  /\ ~ In (EvTake None) (trace s).

(** [m] may be played from [s] in a run without the race. *)
Definition calm_move (m : move) (s : state) : bool :=
  match wpc s, m with
  | W_lock, MWorker => true
  | W_lock, _ => false
  | _, _ => true
  end.

Fixpoint play_calm (ms : list move) (s : state) : option state :=
  match ms with
  | [] => Some s
  | m :: ms' =>
      if calm_move m s
      then match play_move m s with
           | Some s' => play_calm ms' s'
           | None => None
           end
      else None
  end.

(** *** Settling *)

(** [internal_steps n s s']: [n] statements of the two threads, in any
    order and with no new submission, lead from [s] to [s']. *)
Inductive internal_steps : nat -> state -> state -> Prop :=
| internal_steps_O s : internal_steps 0 s s
| internal_steps_S n s s' s'' :
    internal_step s s' -> internal_steps n s' s'' ->
    internal_steps (S n) s s''.

Definition gui_rank (pc : gui_pc) : nat :=
  match pc with
  | G_idle => 0
  | G_unlock => 1
  | G_release => 13
  | G_check => 14
  | G_write _ => 15
  | G_lock _ => 16
  end.

Definition worker_rank (pc : worker_pc) : nat :=
  match pc with
  | W_acquire => 0
  | W_lock => 10
  | W_read => 9
  | W_clear _ => 8
  | W_return _ => 7
  | W_unpack _ => 6
  | W_create _ => 5
  | W_png _ _ => 4
  | W_emit _ _ => 3
  | W_handler _ _ => 3
  | W_dead _ => 0
  end.

(** A bound on the statements the two threads can still run without a new
    submission: what is left of the current call of [set_parameters], what
    is left of the current iteration, and one take per resource in the
    semaphore. *)
Definition potential (s : state) : nat :=
  gui_rank (gpc s) + worker_rank (wpc s) + 11 * semaphore s.

(** *** What the window shows

    The slots [draw_qr_code] and [print_error_message], connected to the
    two signals by [init_thread], and [save_image], triggered by the Save
    action of the label's context menu. *)

(** The content of the label: nothing yet, a pixmap made from an image, or
    a text.  [setPixmap] and [setText] each replace what was there. *)
Inductive label_content : Type :=
| label_blank
| label_pixmap (image : QImage)
| label_text (t : string).

Record display : Type := mkDisplay {
  label : label_content;
  save_action_enabled : bool
}.

(** After [init_ui]: an empty label, and a Save action that is enabled, as
    every new [QAction] is. *)
Definition display_init : display := mkDisplay label_blank true.

Definition draw_qr_code (image : QImage) (d : display) : display :=
  mkDisplay (label_pixmap image) true.

Definition print_error_message (message : string) (d : display) : display :=
  mkDisplay (label_text message) false.

(** The connections made by [init_thread]. *)
Definition on_signal (d : display) (sg : signal) : display :=
  match sg with
  | resultReady image => draw_qr_code image d
  | errorOccurred message => print_error_message message d
  end.

(** The display once the GUI thread has handled the signals [sgs], which
    reach it in the order of emission. *)
Definition display_after (sgs : list signal) : display :=
  fold_left on_signal sgs display_init.

(** What a run of [save_image] does. *)
Inductive save_outcome : Type :=
| nothing_saved
| pixmap_saved (filename : string) (image : QImage)
| save_raised (e : exception).

(** What [self.label.pixmap().save] raises when the label has no pixmap. *)
Definition no_pixmap : exception :=
  OtherError "AttributeError" "'NoneType' object has no attribute 'save'".

(** [save_image], given what [QFileDialog.getSaveFileName] returns: the
    file name and the selected filter, both empty when the user cancels.
    The second is what the source binds to [ok] and tests. *)
Definition save_image (dialog : string * string) (d : display) : save_outcome :=
  let (filename, ok) := dialog in
  if String.eqb ok EmptyString then nothing_saved
  else
    match label d with
    | label_pixmap image => pixmap_saved filename image
    | _ => save_raised no_pixmap
    end.

(** The Save action is triggered: a disabled action cannot be. *)
Definition trigger_save (dialog : string * string) (d : display)
  : option save_outcome :=
  if save_action_enabled d then Some (save_image dialog d) else None.

End Pipeline.

(** ** Concrete states of the stand-in application *)

(** The state [calm_schedule] leads to: the worker is about to call the
    encoder on the startup tuple. *)
Definition calm_state : state (E := sample_encoder) :=
  mkState G_idle (W_create initial_request) None 0 None
          [EvTake (Some initial_request)].

(** The worker has just taken a tuple the stand-in encoder refuses. *)
Definition refused_state : state (E := sample_encoder) :=
  mkState G_idle (W_unpack (Some too_long)) None 0 None
          [EvTake (Some too_long)].

(** The worker has just been handed [None] by [get_parameters]. *)
Definition handed_None : state (E := sample_encoder) :=
  mkState G_idle (W_unpack None) None 0 None [EvTake None].

(** The user sets version 7, picks "Binary" and asks for scale 12, letting
    each submission complete (four statements each after the first, the
    semaphore being already released); the worker then takes the last tuple
    and runs its iteration up to the emission. *)
Definition options_schedule : list action :=
  repeat ActGui 5
  ++ [ActUser (version_entered 7)] ++ repeat ActGui 4
  ++ [ActUser (mode_selected 3)] ++ repeat ActGui 4
  ++ [ActUser (scale_entered 12)] ++ repeat ActGui 4
  ++ repeat ActWorker 8.

Definition options_state : app_state (E := sample_encoder) :=
  Eval vm_compute in
    match run_schedule options_schedule app_init with
    | Some st => st
    | None => app_init
    end.

(** Two submissions, each run to its end, then the worker takes what is
    in the slot and runs its iteration: the startup tuple is overwritten
    before it is taken. *)
Definition settled_moves : list move :=
  [MSubmit initial_request] ++ repeat MGui 5
  ++ [MSubmit typed_A] ++ repeat MGui 4
  ++ repeat MWorker 9.

Definition settled_state : state (E := sample_encoder) :=
  Eval vm_compute in
    match play settled_moves init with
    | Some s => s
    | None => init
    end.

(** The GUI thread has written the startup tuple and is about to test the
    semaphore. *)
Definition writing_moves : list move :=
  [MSubmit initial_request; MGui; MGui].

Definition writing_state : state (E := sample_encoder) :=
  Eval vm_compute in
    match play writing_moves init with
    | Some s => s
    | None => init
    end.

(** [writing_state] two statements of the GUI thread later: the semaphore
    is released. *)
Definition released_state : state (E := sample_encoder) :=
  Eval vm_compute in
    match play (writing_moves ++ [MGui; MGui]) init with
    | Some s => s
    | None => init
    end.

(** Where [race_schedule] leaves the pipeline. *)
Definition raced_state : state (E := sample_encoder) :=
  Eval vm_compute in
    match run_schedule race_schedule app_init with
    | Some (_, s) => s
    | None => init
    end.

(** A single submission of "A" run to its end, then the worker as far as
    it gets, on the encoder that breaks its contract. *)
Definition lone_moves : list move := repeat MGui 5 ++ repeat MWorker 7.

Definition crashed_state : state (E := crashing_encoder) :=
  Eval vm_compute in
    match play ([MSubmit typed_A] ++ lone_moves) init with
    | Some s => s
    | None => init
    end.

Section PipelineFacts.

Context {E : Encoder}.

(** ** Basic facts about steps *)

Ltac case_pcs s :=
  destruct s as [g w sl sem mu tr]; destruct g; destruct w;
  cbn [gpc wpc parameters semaphore mutex trace] in *.

Ltac invert_some :=
  repeat match goal with
  | H : Some _ = Some _ |- _ => inversion H; subst; clear H
  | H : None = Some _ |- _ => discriminate H
  | H : (if ?b then _ else _) = Some _ |- _ => destruct b eqn:?
  | H : match ?x with _ => _ end = Some _ |- _ => destruct x eqn:?
  end.

Lemma gui_step_worker (s s' : state) :
  gui_step s = Some s' ->
  wpc s' = wpc s /\ trace s' = trace s.
Proof.
  unfold gui_step; intros H; invert_some; auto.
Qed.

Lemma call_set_parameters_spec (p : Parameters) (s s' : state) :
  call_set_parameters p s = Some s' ->
  gpc s = G_idle /\ s' = set_gpc s (G_lock p).
Proof.
  unfold call_set_parameters; intros H; invert_some; auto.
Qed.

(** Whole calls are paths of the step relation. *)
Lemma reachable_from_trans (a b c : state) :
  reachable_from a b -> reachable_from b c -> reachable_from a c.
Proof.
  intros Hab Hbc; induction Hbc; [assumption | econstructor; eauto].
Qed.

Lemma worker_steps_reachable (n : nat) :
  forall s s', worker_steps n s = Some s' -> reachable_from s s'.
Proof.
  induction n as [|n IH]; cbn; intros s s' H.
  - inversion H; constructor.
  - destruct (worker_step s) as [s1|] eqn:Hs; [|discriminate].
    eapply reachable_from_trans; [|eapply IH; eassumption].
    econstructor; [constructor|]. now apply step_internal, step_worker.
Qed.

Lemma gui_run_reachable (n : nat) :
  forall s s', gui_run n s = Some s' -> reachable_from s s'.
Proof.
  induction n as [|n IH]; intros s s' H.
  - cbn in H. destruct (gpc s); inversion H; constructor.
  - cbn in H. destruct (gpc s) eqn:Hg;
      try (inversion H; constructor; fail);
      (destruct (gui_step s) as [s1|] eqn:Hs; [|discriminate];
       eapply reachable_from_trans; [|eapply IH; eassumption];
       econstructor; [constructor|]; now apply step_internal, step_gui).
Qed.

Lemma set_parameters_reachable (p : Parameters) (s s' : state) :
  set_parameters p s = Some s' -> reachable_from s s'.
Proof.
  unfold set_parameters; intros H.
  destruct (call_set_parameters p s) as [s1|] eqn:Hc; [|discriminate].
  eapply reachable_from_trans; [|eapply gui_run_reachable; eassumption].
  econstructor; [constructor|]. eapply step_submit; eassumption.
Qed.

Lemma get_parameters_reachable
  (s s' : state) (ret : option Parameters) :
  get_parameters s = Some (ret, s') -> reachable_from s s'.
Proof.
  unfold get_parameters; intros H.
  destruct (wpc s); try discriminate.
  destruct (worker_steps 5 s) as [t|] eqn:Ht; [|discriminate].
  destruct (wpc t); try discriminate. inversion H; subst.
  now apply (worker_steps_reachable 5).
Qed.

(** ** The mutex and the semaphore

    The holder of the mutex is determined by the program counters, the two
    critical sections exclude each other, and the semaphore never counts
    beyond one. *)

Lemma raise_not_critical (p : Parameters) (e : exception) :
  worker_in_critical (raise_in_try p e) = false.
Proof.
  destruct e; reflexivity.
Qed.

Lemma sync_inv_init : sync_inv init.
Proof.
  repeat split; cbn; auto; discriminate.
Qed.

Lemma sync_inv_step (s s' : state) :
  sync_inv s -> step s s' -> sync_inv s'.
Proof.
  intros (Hm & Hx & Hs & Hr) [[Hstep | Hstep] | p Hstep].
  - unfold sync_inv, holder in *; case_pcs s;
      cbn in Hstep, Hm, Hx, Hs, Hr; try discriminate; subst;
      unfold mutex_free in Hstep; cbn in Hstep; invert_some; cbn;
      repeat split; auto; try discriminate; try lia;
      try (apply Nat.eqb_eq in Heqb; lia);
      try (apply Nat.eqb_neq in Heqb; lia);
      try (specialize (Hr eq_refl); lia).
  - unfold sync_inv, holder in *; case_pcs s;
      cbn in Hstep, Hm, Hx, Hs, Hr; try discriminate; subst;
      unfold mutex_free in Hstep; cbn in Hstep; invert_some; cbn;
      rewrite ?raise_not_critical;
      repeat split; auto; try discriminate; try lia;
      try (intros _; apply Nat.ltb_lt in Heqb; specialize (Hr eq_refl); lia).
  - apply call_set_parameters_spec in Hstep as [Hg ->].
    unfold sync_inv, holder in *; case_pcs s; try discriminate; cbn in *;
      repeat split; auto; discriminate.
Qed.

Lemma sync_inv_reachable (s : state) : reachable s -> sync_inv s.
Proof.
  induction 1; [apply sync_inv_init | eapply sync_inv_step; eauto].
Qed.

(** C6. Lock scope: in every reachable state the mutex is held by a
    thread only while that thread is inside its [with QMutexLocker] block,
    that is, at the slot read or write; while the worker is at
    [pyqrcode.create], at [png] or at an [emit], it does not hold the
    mutex.  A holder gives the mutex back within a fixed number of its own
    statements, none of which can block, and the worker does so before it
    calls the encoder. *)
Theorem lock_scope (s : state) :
  reachable s ->
  (mutex s = Some Worker -> worker_in_critical (wpc s) = true)
  /\ (mutex s = Some GuiThread -> gui_in_critical (gpc s) = true)
  /\ (worker_encoding (wpc s) = true -> mutex s <> Some Worker)
  /\ (mutex s = Some Worker ->
      exists n s',
        n <= 3 /\ worker_steps n s = Some s' /\ mutex s' = None
        /\ encoded s' = encoded s)
  /\ (mutex s = Some GuiThread ->
      exists s', gui_run 4 s = Some s' /\ mutex s' = None).
Proof.
  intros Hr. destruct (sync_inv_reachable s Hr) as (Hm & Hx & _).
  unfold holder in Hm.
  assert (HW : mutex s = Some Worker -> worker_in_critical (wpc s) = true).
  { intros Hw. rewrite Hw in Hm.
    destruct (gui_in_critical (gpc s)); [discriminate|].
    destruct (worker_in_critical (wpc s)); [reflexivity | discriminate]. }
  assert (HG : mutex s = Some GuiThread -> gui_in_critical (gpc s) = true).
  { intros Hg. rewrite Hg in Hm.
    destruct (gui_in_critical (gpc s)); [reflexivity|].
    destruct (worker_in_critical (wpc s)); discriminate. }
  split; [exact HW|]. split; [exact HG|]. split; [|split].
  - intros He Hw. specialize (HW Hw).
    destruct (wpc s); cbn in He, HW; discriminate.
  - intros Hw. specialize (HW Hw). clear Hm Hx HG Hr Hw.
    destruct s as [g w sl sem mu tr]; cbn in HW.
    destruct w; try discriminate.
    + exists 3; eexists. split; [lia|]. split; [reflexivity|].
      split; [reflexivity|]. unfold encoded; cbn.
      rewrite flat_map_app; cbn. now rewrite app_nil_r.
    + exists 2; eexists. split; [lia|]. split; [reflexivity|].
      split; [reflexivity|]. unfold encoded; cbn.
      rewrite flat_map_app; cbn. now rewrite app_nil_r.
    + exists 1; eexists. split; [lia|]. split; [reflexivity|].
      split; [reflexivity|]. unfold encoded; cbn.
      rewrite flat_map_app; cbn. now rewrite app_nil_r.
  - intros Hg. specialize (HG Hg). clear Hm Hx HW Hr Hg.
    destruct s as [g w sl sem mu tr]; cbn in HG.
    destruct g; try discriminate; destruct sem as [|sem];
      (eexists; split; [reflexivity | reflexivity]).
Qed.

(** ** One iteration of [run] *)

Lemma delivered_log (s : state) (ev : event) :
  delivered (log s ev) =
  delivered s ++ match ev with EvEmit sg => [sg] | _ => [] end.
Proof.
  unfold delivered, log; cbn. rewrite flat_map_app; cbn.
  now rewrite app_nil_r.
Qed.

Lemma consumed_log (s : state) (ev : event) :
  consumed (log s ev) =
  consumed s ++ match ev with EvTake (Some p) => [p] | _ => [] end.
Proof.
  unfold consumed, log; cbn. rewrite flat_map_app; cbn.
  now rewrite app_nil_r.
Qed.

Ltac trace_simpl :=
  unfold delivered, consumed, encoded, rasterized; cbn;
  rewrite ?flat_map_app; cbn; rewrite ?app_nil_r, <- ?app_assoc; cbn.

(** From the unpacking of a consumed tuple the worker runs, without ever
    blocking, to the end of the iteration: back at the top of the loop with
    one signal emitted, or out of [run] with none. *)
Lemma iteration (s : state) (p : Parameters) :
  wpc s = W_unpack (Some p) ->
  exists n s',
    worker_steps n s = Some s'
    /\ same_shared s s'
    /\ consumed s' = consumed s
    /\ encoded s' = encoded s ++ [p]
    /\ match process p with
       | inl image =>
           wpc s' = W_acquire
           /\ delivered s' = delivered s ++ [resultReady image]
       | inr e =>
           if is_ValueError e
           then wpc s' = W_acquire
                /\ delivered s' = delivered s ++ [errorOccurred (str e)]
           else wpc s' = W_dead e /\ delivered s' = delivered s
       end.
Proof.
  destruct s as [g w sl sem mu tr]; cbn; intros ->.
  unfold process, same_shared.
  destruct (pyqrcode_create (text p) (error p) (version p) (mode p))
    as [qr|e] eqn:Hc.
  - destruct (png qr (scale p)) as [buffer|e] eqn:Hp.
    + exists 4; eexists; split.
      * cbn. rewrite Hc; cbn. rewrite Hp; cbn. reflexivity.
      * cbn. repeat split; trace_simpl; reflexivity.
    + destruct e as [msg|msg|cls msg].
      * exists 4; eexists; split.
        -- cbn. rewrite Hc; cbn. rewrite Hp; cbn. reflexivity.
        -- cbn. repeat split; trace_simpl; reflexivity.
      * exists 3; eexists; split.
        -- cbn. rewrite Hc; cbn. rewrite Hp; cbn. reflexivity.
        -- cbn. repeat split; trace_simpl; reflexivity.
      * exists 3; eexists; split.
        -- cbn. rewrite Hc; cbn. rewrite Hp; cbn. reflexivity.
        -- cbn. repeat split; trace_simpl; reflexivity.
  - destruct e as [msg|msg|cls msg].
    + exists 3; eexists; split.
      * cbn. rewrite Hc; cbn. reflexivity.
      * cbn. repeat split; trace_simpl; reflexivity.
    + exists 2; eexists; split.
      * cbn. rewrite Hc; cbn. reflexivity.
      * cbn. repeat split; trace_simpl; reflexivity.
    + exists 2; eexists; split.
      * cbn. rewrite Hc; cbn. reflexivity.
      * cbn. repeat split; trace_simpl; reflexivity.
Qed.

(** ** Whole calls of the mailbox *)

Lemma set_parameters_value (p : Parameters) (s : state) :
  gpc s = G_idle -> mutex s = None ->
  set_parameters p s =
  Some (mkState G_idle (wpc s) (Some p)
          (if Nat.eqb (semaphore s) 0 then 1 else semaphore s) None (trace s)).
Proof.
  destruct s as [g w sl sem mu tr]; cbn; intros -> ->.
  unfold set_parameters, call_set_parameters; cbn.
  destruct sem; reflexivity.
Qed.

Lemma get_parameters_value (s : state) :
  wpc s = W_acquire -> mutex s = None -> 0 < semaphore s ->
  get_parameters s =
  Some (parameters s,
        mkState (gpc s) (W_unpack (parameters s)) None (semaphore s - 1) None
                (trace s ++ [EvTake (parameters s)])).
Proof.
  destruct s as [g w sl sem mu tr]; cbn; intros -> -> Hs.
  unfold get_parameters; cbn.
  destruct sem; [lia|]. reflexivity.
Qed.

Lemma submit_all_coalesces (ps : list Parameters) :
  forall (p : Parameters) (s : state),
    gpc s = G_idle -> mutex s = None ->
    submit_all (ps ++ [p]) s = set_parameters p s.
Proof.
  induction ps as [|p0 ps IH]; intros p s Hg Hm; cbn.
  - destruct (set_parameters p s); reflexivity.
  - rewrite (set_parameters_value p0 s Hg Hm).
    rewrite IH by reflexivity.
    rewrite !set_parameters_value by (assumption || reflexivity).
    cbn. destruct (semaphore s) as [|[|n]]; reflexivity.
Qed.

Lemma idle_mutex_free (s : state) :
  reachable s -> gpc s = G_idle -> wpc s = W_acquire -> mutex s = None.
Proof.
  intros Hr Hg Hw. destruct (sync_inv_reachable s Hr) as (Hm & _).
  unfold holder in Hm. rewrite Hg, Hw in Hm. exact Hm.
Qed.

(** C1. Latest wins: from a reachable state in which the GUI thread is in
    its event loop and the worker is about to call [get_parameters], any
    number of calls of [set_parameters] ending with [p] leave exactly the
    state a single call with [p] leaves; the next [get_parameters] returns
    [p], leaves the slot empty and the semaphore at zero, and records
    nothing but that one take; the worker then calls the encoder on [p]
    alone, emits the one signal [p] yields and can go no further: the
    earlier tuples are neither returned nor encoded, and nothing is queued
    behind [p]. *)
Theorem latest_wins (s : state) (ps : list Parameters) (p : Parameters) :
  reachable s -> gpc s = G_idle -> wpc s = W_acquire ->
  exists s1 s2 n s3,
    submit_all (ps ++ [p]) s = Some s1
    /\ set_parameters p s = Some s1
    /\ get_parameters s1 = Some (Some p, s2)
    /\ parameters s2 = None
    /\ semaphore s2 = 0
    /\ trace s2 = trace s ++ [EvTake (Some p)]
    /\ worker_steps n s2 = Some s3
    /\ reachable s3
    /\ worker_step s3 = None
    /\ consumed s3 = consumed s ++ [p]
    /\ encoded s3 = encoded s ++ [p]
    /\ delivered s3 = delivered s ++ outcomes [p].
Proof.
  intros Hr Hg Hw.
  pose proof (idle_mutex_free s Hr Hg Hw) as Hm.
  destruct (sync_inv_reachable s Hr) as (_ & _ & Hs & _).
  rewrite (submit_all_coalesces ps p s Hg Hm).
  pose proof (set_parameters_reachable p s) as Hreach1.
  rewrite (set_parameters_value p s Hg Hm) in *.
  remember (mkState G_idle (wpc s) (Some p)
              (if Nat.eqb (semaphore s) 0 then 1 else semaphore s) None
              (trace s)) as s1 eqn:Es1.
  assert (Hsem1 : semaphore s1 = 1)
    by (subst s1; cbn; destruct (semaphore s) as [|[|k]]; cbn; lia).
  assert (Hget : get_parameters s1 =
                 Some (parameters s1,
                       mkState (gpc s1) (W_unpack (parameters s1)) None
                               (semaphore s1 - 1) None
                               (trace s1 ++ [EvTake (parameters s1)]))).
  { apply get_parameters_value; subst s1; cbn; auto.
    destruct (semaphore s) as [|k]; cbn; lia. }
  rewrite Hsem1 in Hget.
  assert (Hfields : parameters s1 = Some p /\ gpc s1 = G_idle
                    /\ trace s1 = trace s) by (subst s1; auto).
  destruct Hfields as (Hp1 & Hg1 & Ht1). rewrite Hp1, Hg1, Ht1 in Hget.
  cbn in Hget.
  set (s2 := mkState G_idle (W_unpack (Some p)) None 0 None
               (trace s ++ [EvTake (Some p)])) in *.
  destruct (iteration s2 p eq_refl)
    as (n & s3 & Hn & (_ & _ & Hsem3 & _) & Hc3 & He3 & Hout).
  exists s1, s2, n, s3.
  repeat split; try assumption; try reflexivity.
  - eapply reachable_from_trans; [exact Hr|].
    eapply reachable_from_trans; [apply Hreach1; reflexivity|].
    eapply reachable_from_trans;
      [eapply get_parameters_reachable; exact Hget|].
    eapply worker_steps_reachable; exact Hn.
  - unfold worker_step.
    destruct (process p) as [image|e]; [|destruct (is_ValueError e)];
      destruct Hout as [-> _]; try reflexivity; now rewrite Hsem3.
  - rewrite Hc3. unfold consumed, s2; cbn.
    rewrite flat_map_app; reflexivity.
  - rewrite He3. unfold encoded, s2; cbn.
    rewrite flat_map_app; cbn. now rewrite app_nil_r.
  - assert (Hd2 : delivered s2 = delivered s).
    { unfold delivered, s2; cbn. rewrite flat_map_app; cbn.
      now rewrite app_nil_r. }
    rewrite Hd2 in Hout. unfold outcomes, outcome; cbn [flat_map].
    destruct (process p) as [image|[msg|msg|cls msg]];
      cbn [is_ValueError str] in Hout;
      destruct Hout as [_ ->]; rewrite ?app_nil_r; reflexivity.
Qed.

(** ** After an iteration *)

Lemma worker_steps_app (n m : nat) :
  forall s s' s'',
    worker_steps n s = Some s' -> worker_steps m s' = Some s'' ->
    worker_steps (n + m) s = Some s''.
Proof.
  induction n as [|n IH]; cbn; intros s s' s'' H1 H2.
  - now inversion H1; subst.
  - destruct (worker_step s) as [t|]; [|discriminate]. eauto.
Qed.

(** A terminated worker stays terminated and emits nothing more, whatever
    the GUI thread does. *)
Lemma dead_forever (s t : state) (e : exception) :
  wpc s = W_dead e -> reachable_from s t ->
  wpc t = W_dead e /\ delivered t = delivered s.
Proof.
  intros Hd Hr; induction Hr as [|t t' Hr [Hw Hdel] Hstep]; [auto|].
  destruct Hstep as [[Hstep | Hstep] | p Hstep].
  - apply gui_step_worker in Hstep as [Hw' Htr].
    unfold delivered in *. rewrite Hw', Htr. auto.
  - unfold worker_step in Hstep. rewrite Hw in Hstep. discriminate.
  - apply call_set_parameters_spec in Hstep as [_ ->]. auto.
Qed.

(** C3. Validation-error isolation: when the worker has consumed [p] and
    the encoder raises [ValueError msg] on it, the worker emits
    [errorOccurred msg] and is back at the top of its loop; a tuple [q]
    submitted afterwards is consumed and yields its own signal as usual. *)
Theorem validation_error_isolated
  (s : state) (p q : Parameters) (msg : string) (sg : signal) :
  wpc s = W_unpack (Some p) ->
  process p = inr (ValueError msg) ->
  gpc s = G_idle -> mutex s = None ->
  outcome q = Some sg ->
  exists n s1 s2 m s3,
    worker_steps n s = Some s1
    /\ wpc s1 = W_acquire
    /\ delivered s1 = delivered s ++ [errorOccurred msg]
    /\ set_parameters q s1 = Some s2
    /\ worker_steps m s2 = Some s3
    /\ wpc s3 = W_acquire
    /\ consumed s3 = consumed s ++ [q]
    /\ delivered s3 = delivered s ++ [errorOccurred msg; sg].
Proof.
  intros Hw Hp Hg Hm Hq.
  destruct (iteration s p Hw)
    as (n & s1 & Hn & (Hg1 & _ & _ & Hm1) & Hc1 & _ & Hout).
  rewrite Hp in Hout; cbn in Hout. destruct Hout as [Hw1 Hd1].
  rewrite Hg in Hg1. rewrite Hm in Hm1.
  pose proof (set_parameters_value q s1 Hg1 Hm1) as Hset.
  remember (mkState G_idle (wpc s1) (Some q)
              (if Nat.eqb (semaphore s1) 0 then 1 else semaphore s1) None
              (trace s1)) as s2 eqn:Es2.
  assert (Hget : exists t, worker_steps 5 s2 = Some t
                           /\ wpc t = W_unpack (Some q)
                           /\ consumed t = consumed s1 ++ [q]
                           /\ delivered t = delivered s1).
  { subst s2. rewrite Hw1.
    destruct (semaphore s1);
      (eexists; split;
       [cbn; reflexivity | cbn; repeat split; trace_simpl; reflexivity]). }
  destruct Hget as (t & Ht & Hwt & Hct & Hdt).
  destruct (iteration t q Hwt) as (m & s3 & Hm3 & _ & Hc3 & _ & Hout3).
  unfold outcome in Hq.
  exists n, s1, s2, (5 + m), s3.
  repeat split; try assumption.
  - eapply worker_steps_app; eassumption.
  - destruct (process q) as [image|[msg'|msg'|cls msg']]; cbn in Hout3;
      try discriminate; tauto.
  - congruence.
  - destruct (process q) as [image|[msg'|msg'|cls msg']]; cbn in Hout3;
      try discriminate; inversion Hq; subst;
      destruct Hout3 as [_ ->]; rewrite Hdt, Hd1, <- app_assoc; reflexivity.
Qed.

(** C5. Unknown errors are fatal: when an iteration raises an exception
    that is not a [ValueError], be it from the encoder, from the rasterizer
    or from the unpacking of what [get_parameters] returned, the worker
    leaves [run] with that exception, emits no signal for it, and never
    runs or emits again. *)
Theorem unknown_error_fatal
  (s : state) (ret : option Parameters) (e : exception) :
  wpc s = W_unpack ret ->
  raised ret = Some e ->
  is_ValueError e = false ->
  exists n s',
    worker_steps n s = Some s'
    /\ wpc s' = W_dead e
    /\ delivered s' = delivered s
    /\ worker_step s' = None
    /\ forall t, reachable_from s' t ->
                 wpc t = W_dead e /\ delivered t = delivered s.
Proof.
  intros Hw Hp He.
  assert (H : exists n s', worker_steps n s = Some s'
                           /\ wpc s' = W_dead e
                           /\ delivered s' = delivered s).
  { destruct ret as [p|]; cbn in Hp.
    - destruct (iteration s p Hw) as (n & s' & Hn & _ & _ & _ & Hout).
      destruct (process p) as [image|e']; [discriminate|].
      inversion Hp; subst e'. rewrite He in Hout. exists n, s'. tauto.
    - inversion Hp; subst e.
      exists 1, (set_wpc s (W_dead unpack_None)). repeat split.
      cbn. unfold worker_step. now rewrite Hw. }
  destruct H as (n & s' & Hn & Hd & Hdel).
  exists n, s'. repeat split; try assumption.
  - unfold worker_step. now rewrite Hd.
  - eapply dead_forever; eassumption.
  - rewrite <- Hdel. eapply dead_forever; eassumption.
Qed.

(** ** Accounting of consumed tuples and emitted signals *)

Lemma outcomes_snoc (ps : list Parameters) (p : Parameters) :
  outcomes (ps ++ [p]) =
  outcomes ps ++ match outcome p with Some sg => [sg] | None => [] end.
Proof.
  unfold outcomes. rewrite flat_map_app; cbn. now rewrite app_nil_r.
Qed.

Lemma raise_sound (p : Parameters) (e : exception) :
  process p = inr e -> pc_sound (raise_in_try p e).
Proof.
  destruct e; cbn; auto.
Qed.

Lemma raise_accounted (p : Parameters) (e : exception) (done : list Parameters) :
  process p = inr e ->
  exists done',
    done ++ [p] = done' ++ in_flight (raise_in_try p e)
    /\ outcomes done = outcomes done'.
Proof.
  intros Hp. destruct e as [msg|msg|cls msg]; cbn.
  - exists done; auto.
  - exists (done ++ [p]). rewrite app_nil_r, outcomes_snoc.
    unfold outcome; rewrite Hp. now rewrite app_nil_r.
  - exists (done ++ [p]). rewrite app_nil_r, outcomes_snoc.
    unfold outcome; rewrite Hp. now rewrite app_nil_r.
Qed.

Lemma accounted_worker_step (s s' : state) :
  pc_sound (wpc s) -> accounted s -> worker_step s = Some s' ->
  pc_sound (wpc s') /\ accounted s'.
Proof.
  intros Hs (done & Hc & Hd) Hstep. unfold accounted.
  destruct s as [g w sl sem mu tr]; unfold worker_step in Hstep;
    cbn [gpc wpc parameters semaphore mutex trace] in *.
  destruct w; cbn [in_flight pc_sound] in *.
  - invert_some. split; [exact I|]. exists done; auto.
  - invert_some. split; [exact I|]. exists done; auto.
  - invert_some. split; [exact I|]. exists done; auto.
  - invert_some. split; [exact I|]. exists done; auto.
  - invert_some. split; [exact I|]. exists done. cbn [wpc set_wpc log].
    rewrite consumed_log, delivered_log. cbn.
    unfold consumed, delivered in *; cbn in *. rewrite Hc, Hd.
    rewrite !app_nil_r. destruct local; auto.
  - destruct ret; invert_some; (split; [exact I|]); exists done; auto.
  - destruct (pyqrcode_create (text p) (error p) (version p) (mode p))
      as [qr|e] eqn:Hcr; invert_some.
    + split; [exact Hcr|]. exists done.
      unfold consumed, delivered in *; cbn in *.
      rewrite !flat_map_app; cbn. rewrite !app_nil_r. auto.
    + assert (Hp : process p = inr e) by (unfold process; now rewrite Hcr).
      split; [now apply raise_sound|].
      destruct (raise_accounted p e done Hp) as (done' & E1 & E2).
      exists done'. unfold consumed, delivered in *; cbn in *.
      rewrite !flat_map_app; cbn. rewrite !app_nil_r.
      rewrite Hc, Hd. auto.
  - destruct (png qr (scale p)) as [buffer|e] eqn:Hpn; invert_some.
    + split; [cbn; unfold process; now rewrite Hs, Hpn|]. exists done.
      unfold consumed, delivered in *; cbn in *.
      rewrite !flat_map_app; cbn. rewrite !app_nil_r. auto.
    + assert (Hp : process p = inr e)
        by (unfold process; now rewrite Hs, Hpn).
      split; [now apply raise_sound|].
      destruct (raise_accounted p e done Hp) as (done' & E1 & E2).
      exists done'. unfold consumed, delivered in *; cbn in *.
      rewrite !flat_map_app; cbn. rewrite !app_nil_r.
      rewrite Hc, Hd. auto.
  - invert_some. split; [exact I|]. exists (done ++ [p]).
    unfold consumed, delivered in *; cbn in *.
    rewrite !flat_map_app; cbn. rewrite !app_nil_r.
    rewrite Hc, Hd, outcomes_snoc. unfold outcome; rewrite Hs. auto.
  - invert_some. split; [exact I|]. exists (done ++ [p]).
    unfold consumed, delivered in *; cbn in *.
    rewrite !flat_map_app; cbn. rewrite !app_nil_r.
    rewrite Hc, Hd, outcomes_snoc. unfold outcome; rewrite Hs. auto.
  - discriminate.
Qed.

Lemma accounted_reachable (s : state) :
  reachable s -> pc_sound (wpc s) /\ accounted s.
Proof.
  induction 1 as [|s s' Hr [Hs Ha] Hstep].
  - split; [exact I|]. exists []; auto.
  - destruct Hstep as [[Hstep | Hstep] | p Hstep].
    + apply gui_step_worker in Hstep as [Hw Htr].
      unfold accounted, consumed, delivered in *. rewrite Hw, Htr. auto.
    + eapply accounted_worker_step; eassumption.
    + apply call_set_parameters_spec in Hstep as [_ ->]. auto.
Qed.

(** From anywhere inside an iteration the worker reaches its end without
    blocking, and emits there what [outcome] says. *)
Lemma finish_iteration (s : state) (p : Parameters) :
  pc_sound (wpc s) -> in_flight (wpc s) = [p] ->
  exists n s',
    worker_steps n s = Some s'
    /\ same_shared s s'
    /\ consumed s' = consumed s
    /\ in_flight (wpc s') = []
    /\ delivered s' =
       delivered s ++ match outcome p with Some sg => [sg] | None => [] end.
Proof.
  intros Hs Hin.
  destruct (wpc s) as [| | | | |[p0|]|p0|p0 qr|p0 image|p0 msg|] eqn:Hw;
    cbn in Hin; try discriminate; inversion Hin; subst p0; clear Hin.
  - destruct (iteration s p Hw) as (n & s' & Hn & Hsh & Hc & _ & Hout).
    exists n, s'. unfold outcome.
    destruct (process p) as [image|[msg|msg|cls msg]]; cbn in Hout;
      destruct Hout as [Hw' Hd];
      repeat split; try apply Hsh; try assumption;
      rewrite ?Hw', ?app_nil_r; try reflexivity; assumption.
  - destruct s as [g w sl sem mu tr]; cbn in Hw; subst w.
    unfold outcome, process, same_shared.
    destruct (pyqrcode_create (text p) (error p) (version p) (mode p))
      as [qr|[msg|msg|cls msg]] eqn:Hc;
      [destruct (png qr (scale p)) as [buffer|[msg|msg|cls msg]] eqn:Hp|..].
    all: first
      [ exists 3; eexists; split;
        [cbn; rewrite Hc; cbn; rewrite Hp; cbn; reflexivity|]
      | exists 2; eexists; split;
        [cbn; rewrite Hc; cbn; rewrite ?Hp; cbn; reflexivity|]
      | exists 1; eexists; split;
        [cbn; rewrite Hc; cbn; reflexivity|] ];
      cbn; repeat split; trace_simpl; reflexivity.
  - destruct s as [g w sl sem mu tr]; cbn in Hw, Hs; subst w.
    unfold outcome, process, same_shared. rewrite Hs.
    destruct (png qr (scale p)) as [buffer|[msg|msg|cls msg]] eqn:Hp.
    all: first
      [ exists 2; eexists; split; [cbn; rewrite Hp; cbn; reflexivity|]
      | exists 1; eexists; split; [cbn; rewrite Hp; cbn; reflexivity|] ];
      cbn; repeat split; trace_simpl; reflexivity.
  - destruct s as [g w sl sem mu tr]; cbn in Hw, Hs; subst w.
    unfold outcome, same_shared. rewrite Hs.
    exists 1; eexists; split; [reflexivity|].
    cbn; repeat split; trace_simpl; reflexivity.
  - destruct s as [g w sl sem mu tr]; cbn in Hw, Hs; subst w.
    unfold outcome, same_shared. rewrite Hs.
    exists 1; eexists; split; [reflexivity|].
    cbn; repeat split; trace_simpl; reflexivity.
Qed.

Lemma outcomes_all_some (ps : list Parameters) :
  (forall p, In p ps -> outcome p <> None) ->
  map Some (outcomes ps) = map outcome ps.
Proof.
  induction ps as [|p ps IH]; intros Hall; [reflexivity|].
  unfold outcomes in *; cbn.
  destruct (outcome p) as [sg|] eqn:Hp.
  - cbn. f_equal. apply IH. intros q Hq; apply Hall; now right.
  - exfalso. apply (Hall p); [now left | assumption].
Qed.


(** ** A single submission *)

Ltac use_encoder :=
  repeat match goal with
  | Heq : pyqrcode_create _ _ _ _ = _ |- _ => rewrite Heq; cbn
  | Heq : png _ _ = _ |- _ => rewrite Heq; cbn
  end.

Ltac use_encoder_in H :=
  repeat match goal with
  | Heq : pyqrcode_create _ _ _ _ = _ |- _ => rewrite Heq in H; cbn in H
  | Heq : png _ _ = _ |- _ => rewrite Heq in H; cbn in H
  end.

Ltac norm_state :=
  cbv [set_gpc set_wpc set_slot set_semaphore set_mutex log
       gpc wpc parameters semaphore mutex trace app Nat.add Nat.sub].

(** Follow every interleaving from a concrete state. *)
Ltac explore :=
  first
    [ apply until_now; repeat split; reflexivity
    | apply until_later;
      [ reflexivity
      | first [ eexists; apply step_gui; cbn; reflexivity
              | eexists; apply step_worker; cbn; use_encoder; reflexivity ]
      | let s' := fresh "s'" in
        let H := fresh "H" in
        intros s' H; destruct H as [H|H]; cbn in H; use_encoder_in H;
        first [ discriminate H
              | injection H as <-; norm_state; explore ] ] ].


(** ** Tuples are only moved, never made, by the pipeline *)

Lemma raise_ok (P : Parameters -> Prop) (p : Parameters) (e : exception) :
  P p -> worker_ok P (raise_in_try p e).
Proof.
  destruct e; cbn; auto.
Qed.

Lemma all_ok_init (P : Parameters -> Prop) : all_ok P init.
Proof.
  repeat split; cbn; auto.
Qed.

Lemma all_ok_internal (P : Parameters -> Prop) (s s' : state) :
  all_ok P s -> internal_step s s' -> all_ok P s'.
Proof.
  intros (Hg & Hsl & Hw & Htr) [Hstep | Hstep]; unfold all_ok in *.
  - case_pcs s; cbn in Hstep, Hg, Hw; try discriminate;
      unfold mutex_free in Hstep; cbn in Hstep; invert_some; cbn; auto.
  - destruct s as [g w sl sem mu tr]; unfold worker_step in Hstep;
      cbn [gpc wpc parameters semaphore mutex trace] in *.
    destruct w; cbn in Hw; unfold mutex_free in Hstep; cbn in Hstep;
      invert_some; cbn;
      repeat split; auto; try (apply raise_ok; assumption);
      apply Forall_app; split; auto; repeat constructor; cbn; eauto.
Qed.

Lemma all_ok_submit (P : Parameters -> Prop) (p : Parameters) (s s' : state) :
  all_ok P s -> P p -> call_set_parameters p s = Some s' -> all_ok P s'.
Proof.
  intros (Hg & Hsl & Hw & Htr) Hp Hc.
  apply call_set_parameters_spec in Hc as [_ ->]. repeat split; auto.
Qed.

Lemma all_ok_encoded (P : Parameters -> Prop) (s : state) (p : Parameters) :
  all_ok P s -> In p (encoded s) -> P p.
Proof.
  intros (_ & _ & _ & Htr) Hin. unfold encoded in Hin.
  apply in_flat_map in Hin as (ev & Hev & Hp).
  rewrite Forall_forall in Htr. specialize (Htr ev Hev).
  destruct ev; cbn in Hp; try contradiction.
  destruct Hp as [<-|[]]. exact Htr.
Qed.

Lemma all_ok_rasterized (P : Parameters -> Prop) (s : state) (sc : Z) :
  all_ok P s -> In sc (rasterized s) -> exists p, P p /\ scale p = sc.
Proof.
  intros (_ & _ & _ & Htr) Hin. unfold rasterized in Hin.
  apply in_flat_map in Hin as (ev & Hev & Hp).
  rewrite Forall_forall in Htr. specialize (Htr ev Hev).
  destruct ev; cbn in Hp; try contradiction.
  destruct Hp as [<-|[]]. exact Htr.
Qed.

(** ** The application *)

Lemma run_schedule_reachable (acts : list action) :
  forall st st',
    app_reachable st -> run_schedule acts st = Some st' -> app_reachable st'.
Proof.
  induction acts as [|a acts IH]; cbn; intros st st' Hr H.
  - now inversion H; subst.
  - destruct (perform a st) as [st1|] eqn:Hp; [|discriminate].
    eapply IH; [|eassumption]. econstructor; eassumption.
Qed.

Lemma with_window_some (w w' : MainWindow) (o : option state) (s' : state) :
  with_window w o = Some (w', s') -> w' = w /\ o = Some s'.
Proof.
  destruct o; cbn; intros H; inversion H; auto.
Qed.

Lemma app_reachable_core (st : app_state) :
  app_reachable st -> reachable (snd st).
Proof.
  induction 1 as [|a [w s] [w' s'] Hr IH Hp]; cbn in *.
  - econstructor; [constructor|]. now eapply step_submit.
  - destruct a as [| |e].
    + apply with_window_some in Hp as [_ Hp].
      econstructor; [eassumption|]. now apply step_internal, step_gui.
    + apply with_window_some in Hp as [_ Hp].
      econstructor; [eassumption|]. now apply step_internal, step_worker.
    + destruct (gpc s) eqn:Hg; try discriminate.
      destruct (signal_fires e w).
      * apply with_window_some in Hp as [_ Hp].
        econstructor; [eassumption|]. eapply step_submit; eassumption.
      * inversion Hp; subst; assumption.
Qed.

(** ** Synchronisation in every interleaving *)

(** X1. The semaphore is binary in effect: in every reachable state it
    holds at most one resource, however many submissions were made. *)
Theorem semaphore_binary (s : state) :
  reachable s -> semaphore s <= 1.
Proof.
  intros Hr. now destruct (sync_inv_reachable s Hr) as (_ & _ & Hs & _).
Qed.

(** X2. Mutual exclusion: the GUI thread and the worker are never both
    inside their [with QMutexLocker] blocks. *)
Theorem mutual_exclusion (s : state) :
  reachable s ->
  gui_in_critical (gpc s) = true -> worker_in_critical (wpc s) = false.
Proof.
  intros Hr Hg. destruct (sync_inv_reachable s Hr) as (_ & Hx & _).
  rewrite Hg in Hx. exact Hx.
Qed.

(** When neither thread can run, the GUI thread is in its event loop and
    the worker waits on an empty semaphore or has left [run]. *)
Lemma settled_shape (s : state) :
  reachable s -> quiescent s ->
  gpc s = G_idle
  /\ ((wpc s = W_acquire /\ semaphore s = 0)
      \/ exists e, wpc s = W_dead e).
Proof.
  intros Hr [Hg Hw]. destruct (sync_inv_reachable s Hr) as (Hm & Hx & _).
  unfold holder in Hm. unfold gui_step, worker_step, mutex_free in *.
  destruct (gpc s) eqn:Eg; try discriminate;
    try (destruct (Nat.eqb (semaphore s) 0); discriminate).
  - split; [reflexivity|]. cbn in Hm.
    destruct (wpc s) eqn:Ew; cbn in Hm; try discriminate; eauto.
    + left. split; [reflexivity|].
      destruct (Nat.ltb 0 (semaphore s)) eqn:Hs; [discriminate|].
      apply Nat.ltb_ge in Hs. lia.
    + rewrite Hm in Hw. discriminate.
    + destruct ret; discriminate.
    + destruct (pyqrcode_create (text p) (error p) (version p) (mode p));
        discriminate.
    + destruct (png qr (scale p)); discriminate.
  - exfalso. cbn in Hm.
    destruct (wpc s) eqn:Ew; cbn in Hm; rewrite Hm in Hg; try discriminate.
Qed.

(** X3. No deadlock: a thread that waits for the mutex waits for the other
    thread, which can run; and when neither thread can run, the GUI thread
    is in its event loop and the worker either waits on an empty semaphore
    or has left [run]. *)
Theorem no_deadlock (s : state) :
  reachable s ->
  (gui_step s = None -> gpc s <> G_idle ->
   exists s', worker_step s = Some s')
  /\ (worker_step s = None -> wpc s = W_lock ->
      exists s', gui_step s = Some s')
  /\ (quiescent s ->
      gpc s = G_idle
      /\ ((wpc s = W_acquire /\ semaphore s = 0)
          \/ exists e, wpc s = W_dead e)).
Proof.
  intros Hr. destruct (sync_inv_reachable s Hr) as (Hm & Hx & _).
  unfold holder in Hm. split; [|split].
  - intros Hg Hn. unfold gui_step, mutex_free in Hg.
    destruct (gpc s) eqn:Eg; try congruence; try discriminate;
      try (destruct (Nat.eqb (semaphore s) 0); discriminate).
    cbn in Hm. destruct (mutex s) eqn:Emu; cbn in Hg; [|discriminate].
    unfold worker_step.
    destruct (wpc s) eqn:Ew; cbn in Hm; try discriminate; eauto.
  - intros Hw Hl. unfold worker_step, mutex_free in Hw. rewrite Hl in Hw.
    rewrite Hl in Hm. cbn in Hm.
    destruct (mutex s) eqn:Emu; cbn in Hw; [|discriminate].
    unfold gui_step.
    destruct (gpc s) eqn:Eg; cbn in Hm; try discriminate; eauto.
    destruct (Nat.eqb (semaphore s) 0); eauto.
  - now apply settled_shape.
Qed.

(** ** Settling *)

Lemma raise_rank (p : Parameters) (e : exception) :
  worker_rank (raise_in_try p e) <= 3.
Proof.
  destruct e; cbn; lia.
Qed.

Lemma potential_decreases (s s' : state) :
  internal_step s s' -> potential s' < potential s.
Proof.
  intros [Hstep | Hstep]; unfold potential.
  - destruct s as [g w sl sem mu tr]; unfold gui_step, mutex_free in Hstep;
      cbn [gpc wpc parameters semaphore mutex trace] in *.
    destruct g; invert_some; cbn; lia.
  - destruct s as [g w sl sem mu tr]; unfold worker_step, mutex_free in Hstep;
      cbn [gpc wpc parameters semaphore mutex trace] in *.
    destruct w; invert_some; cbn;
      try (pose proof (raise_rank p e)); try lia.
    apply Nat.ltb_lt in Heqb. lia.
Qed.

(** X4. Settling: without a new submission the two threads run at most
    [potential s] statements from [s], whatever the interleaving; the
    worker does not spin on the mailbox. *)
Theorem settles_within (n : nat) (s s' : state) :
  internal_steps n s s' -> n + potential s' <= potential s.
Proof.
  induction 1 as [s|n s s1 s2 Hstep Hsteps IH]; [lia|].
  apply potential_decreases in Hstep. lia.
Qed.

(** ** No wake-up is lost *)

Lemma wake_inv_step (s s' : state) :
  wake_inv s -> step s s' -> wake_inv s'.
Proof.
  unfold wake_inv. intros H [[Hstep | Hstep] | p Hstep].
  - destruct s as [g w sl sem mu tr]; unfold gui_step, mutex_free in Hstep;
      cbn [gpc wpc parameters semaphore mutex trace] in *.
    destruct g; invert_some; cbn in *; try tauto;
      try (right; right; left; lia);
      try (apply Nat.eqb_neq in Heqb; right; right; left; lia);
      try (destruct H as [H|[H|[H|H]]]; try discriminate; auto; fail).
  - destruct s as [g w sl sem mu tr]; unfold worker_step, mutex_free in Hstep;
      cbn [gpc wpc parameters semaphore mutex trace] in *.
    destruct w; invert_some; cbn in *; try tauto;
      try (destruct H as [H|[H|[H|H]]]; try discriminate; auto; fail).
  - apply call_set_parameters_spec in Hstep as [Hg ->]. cbn.
    rewrite Hg in H. cbn in H.
    destruct H as [H|[H|[H|H]]]; try discriminate; auto.
Qed.

Lemma wake_inv_reachable (s : state) : reachable s -> wake_inv s.
Proof.
  induction 1; [now left | eapply wake_inv_step; eauto].
Qed.

(** A settled state with a live worker has an empty slot. *)
Lemma settled_slot_empty (s : state) :
  reachable s -> quiescent s -> wpc s = W_acquire -> parameters s = None.
Proof.
  intros Hr Hq Hw.
  destruct (settled_shape s Hr Hq) as (Hg & [[_ Hs] | [e He]]); [|congruence].
  destruct (wake_inv_reachable s Hr) as [H|[H|[H|H]]]; [assumption| | |].
  - rewrite Hg in H. discriminate.
  - lia.
  - rewrite Hw in H. discriminate.
Qed.

(** X5. No lost wake-up: in every reachable state an occupied slot has
    its wake-up, pending or already taken; so when neither thread can run
    and the worker is alive, the slot is empty: no submitted tuple is left
    behind in it. *)
Theorem no_lost_wakeup (s : state) :
  reachable s ->
  (parameters s <> None ->
   gui_signalling (gpc s) = true \/ 1 <= semaphore s
   \/ worker_taking (wpc s) = true)
  /\ (quiescent s -> wpc s = W_acquire -> parameters s = None).
Proof.
  intros Hr. split.
  - intros Hn. destruct (wake_inv_reachable s Hr) as [H|H];
      [contradiction | exact H].
  - now apply settled_slot_empty.
Qed.

(** ** From submission to consumption *)

Lemma runs_reachable (subs : list Parameters) (s : state) :
  runs subs s -> reachable s.
Proof.
  induction 1 as [|subs s s' Hr IH Hstep|subs s s' p Hr IH Hstep].
  - constructor.
  - econstructor; [eassumption|]. now apply step_internal.
  - econstructor; [eassumption|]. eapply step_submit; eassumption.
Qed.

Lemma play_runs (ms : list move) :
  forall subs s s',
    runs subs s -> play ms s = Some s' -> runs (subs ++ submissions ms) s'.
Proof.
  induction ms as [|m ms IH]; cbn; intros subs s s' Hr H.
  - inversion H; subst. now rewrite app_nil_r.
  - destruct (play_move m s) as [s1|] eqn:Hm; [|discriminate].
    destruct m as [| |p]; cbn in Hm.
    + eapply (IH subs); [|eassumption]. eapply runs_internal; [eassumption|].
      now apply step_gui.
    + eapply (IH subs); [|eassumption]. eapply runs_internal; [eassumption|].
      now apply step_worker.
    + change (submissions (MSubmit p :: ms)) with ([p] ++ submissions ms).
      rewrite app_assoc. eapply IH; [|eassumption].
      eapply runs_submit; eassumption.
Qed.

Lemma handoff_inv_step (s s' : state) :
  sync_inv s -> handoff_inv s -> step s s' -> handoff_inv s'.
Proof.
  intros (_ & Hx & _) H [[Hstep | Hstep] | p Hstep]; unfold handoff_inv in *.
  - case_pcs s; cbn in Hstep, Hx; try discriminate;
      unfold mutex_free in Hstep; cbn in Hstep; invert_some; cbn; auto.
  - destruct s as [g w sl sem mu tr]; unfold worker_step, mutex_free in Hstep;
      cbn [gpc wpc parameters semaphore mutex trace] in *.
    destruct w; invert_some; cbn; auto;
      try (destruct e; cbn; exact I).
  - apply call_set_parameters_spec in Hstep as [_ ->]. exact H.
Qed.

Lemma handoff_inv_reachable (s : state) : reachable s -> handoff_inv s.
Proof.
  induction 1 as [|s s' Hr IH Hstep]; [exact I|].
  eapply handoff_inv_step; [apply sync_inv_reachable| |]; eassumption.
Qed.

Lemma subseq_refl {A : Type} (l : list A) : subseq l l.
Proof.
  induction l; [constructor | now apply subseq_keep].
Qed.

Lemma subseq_nil_l {A : Type} (l : list A) : subseq [] l.
Proof.
  induction l; constructor; assumption.
Qed.

Lemma subseq_trans {A : Type} (l1 l2 l3 : list A) :
  subseq l1 l2 -> subseq l2 l3 -> subseq l1 l3.
Proof.
  intros H12 H23. revert l1 H12.
  induction H23 as [|x l2 l3 H IH|x l2 l3 H IH]; intros l1 H12.
  - assumption.
  - constructor. now apply IH.
  - inversion H12; subst.
    + constructor. now apply IH.
    + apply subseq_keep. now apply IH.
Qed.

Lemma subseq_app {A : Type} (a b c d : list A) :
  subseq a b -> subseq c d -> subseq (a ++ c) (b ++ d).
Proof.
  induction 1 as [|x a b H IH|x a b H IH]; cbn; intros Hcd.
  - assumption.
  - apply subseq_skip. now apply IH.
  - apply subseq_keep. now apply IH.
Qed.

Lemma subseq_In {A : Type} (l1 l2 : list A) (x : A) :
  subseq l1 l2 -> In x l1 -> In x l2.
Proof.
  induction 1; cbn; intuition.
Qed.

Lemma subseq_length {A : Type} (l1 l2 : list A) :
  subseq l1 l2 -> length l1 <= length l2.
Proof.
  induction 1; cbn; lia.
Qed.

(** An internal step leaves what is consumed or in transit as it is, or
    drops from it the tuple an overwrite replaces. *)
Lemma transit_internal (s s' : state) :
  sync_inv s -> handoff_inv s -> internal_step s s' ->
  subseq (consumed s' ++ in_transit s') (consumed s ++ in_transit s).
Proof.
  intros (_ & Hx & _) Hh [Hstep | Hstep]; unfold handoff_inv in Hh.
  - apply subseq_app.
    + apply gui_step_worker in Hstep as [_ Htr].
      unfold consumed. rewrite Htr. apply subseq_refl.
    + unfold in_transit.
      case_pcs s; cbn in Hstep, Hx; try discriminate;
        unfold mutex_free in Hstep; cbn in Hstep; invert_some; cbn;
        try apply subseq_refl;
        (destruct sl; cbn; [apply subseq_skip|]; apply subseq_refl).
  - destruct s as [g w sl sem mu tr]; unfold worker_step, mutex_free in Hstep;
      cbn [gpc wpc parameters semaphore mutex trace] in *.
    unfold in_transit, consumed.
    destruct w; invert_some; cbn;
      rewrite ?flat_map_app; cbn; rewrite ?app_nil_r;
      try apply subseq_refl;
      try (destruct e; cbn; apply subseq_refl);
      try (subst; destruct local; cbn; rewrite <- ?app_assoc;
           apply subseq_refl).
Qed.

(** X6. What [get_parameters] returns is what was submitted: in every
    run the consumed tuples, followed by those still on their way, are the
    submitted tuples with some left out.  No tuple is made up, none is
    consumed twice, and the order of submission is kept. *)
Theorem consumed_subseq (subs : list Parameters) (s : state) :
  runs subs s ->
  subseq (consumed s ++ in_transit s) subs
  /\ subseq (consumed s) subs
  /\ length (consumed s) <= length subs
  /\ (forall p, In p (consumed s) -> In p subs).
Proof.
  intros Hr.
  assert (H : subseq (consumed s ++ in_transit s) subs).
  { induction Hr as [|subs s s' Hr IH Hstep|subs s s' p Hr IH Hstep].
    - constructor.
    - apply runs_reachable in Hr.
      eapply subseq_trans; [|exact IH].
      apply transit_internal;
        [apply sync_inv_reachable | apply handoff_inv_reachable |];
        assumption.
    - apply call_set_parameters_spec in Hstep as [Hg ->].
      unfold in_transit, consumed in *; cbn. rewrite Hg in IH.
      rewrite app_nil_r in IH. rewrite app_assoc.
      apply subseq_app; [exact IH | apply subseq_refl]. }
  assert (H' : subseq (consumed s) subs).
  { eapply subseq_trans; [|exact H].
    rewrite <- (app_nil_r (consumed s)) at 1.
    apply subseq_app; [apply subseq_refl | apply subseq_nil_l]. }
  repeat split; try assumption.
  - now apply subseq_length.
  - intros p. now apply subseq_In.
Qed.

Lemma latest_internal (p : Parameters) (s s' : state) :
  sync_inv s -> handoff_inv s -> latest p s -> internal_step s s' ->
  latest p s'.
Proof.
  intros (_ & Hx & _) Hh Hl [Hstep | Hstep];
    unfold handoff_inv, latest in *.
  - case_pcs s; cbn in Hstep, Hx; try discriminate;
      unfold mutex_free in Hstep; cbn in Hstep; invert_some;
      unfold consumed in *; cbn in *; subst; auto.
  - destruct s as [g w sl sem mu tr]; unfold worker_step, mutex_free in Hstep;
      cbn [gpc wpc parameters semaphore mutex trace] in *.
    destruct g; try exact Hl;
      (destruct w; invert_some; unfold consumed in *; cbn in *;
       rewrite ?flat_map_app; cbn; rewrite ?app_nil_r; subst; auto;
       try (destruct e; cbn; auto; fail));
      (right; split; [reflexivity|];
       destruct Hl as [->|[-> [done Hd]]];
       [eexists; reflexivity | exists done; now rewrite app_nil_r]).
Qed.

Lemma latest_runs (l : list Parameters) (s : state) :
  runs l s -> forall subs p, l = subs ++ [p] -> latest p s.
Proof.
  induction 1 as [|l s s' Hr IH Hstep|l s s' q Hr IH Hstep];
    intros subs p El.
  - destruct subs; discriminate.
  - apply runs_reachable in Hr.
    eapply latest_internal;
      [apply sync_inv_reachable | apply handoff_inv_reachable | |];
      eauto.
  - apply app_inj_tail in El as [_ ->].
    apply call_set_parameters_spec in Hstep as [_ ->].
    unfold latest; cbn. reflexivity.
Qed.

(** In a settled run with a live worker the tuple submitted last is the
    tuple consumed last. *)
Lemma latest_settled (subs : list Parameters) (p : Parameters) (s : state) :
  runs (subs ++ [p]) s -> quiescent s -> wpc s = W_acquire ->
  exists done, consumed s = done ++ [p].
Proof.
  intros Hr Hq Hw.
  pose proof (runs_reachable _ _ Hr) as Hreach.
  pose proof (settled_slot_empty s Hreach Hq Hw) as Hempty.
  destruct (settled_shape s Hreach Hq) as [Hg _].
  pose proof (latest_runs _ _ Hr subs p eq_refl) as Hl.
  unfold latest in Hl. rewrite Hg, Hw, Hempty in Hl.
  destruct Hl as [Hl | [_ Hd]]; [discriminate | exact Hd].
Qed.

(** With the worker at the top of its loop, every consumed tuple has had
    its iteration. *)
Lemma delivered_at_acquire (s : state) :
  reachable s -> wpc s = W_acquire -> delivered s = outcomes (consumed s).
Proof.
  intros Hr Hw.
  destruct (accounted_reachable s Hr) as (_ & done & Hc & Hdel).
  rewrite Hw in Hc. cbn in Hc. rewrite app_nil_r in Hc. congruence.
Qed.

(** X7. The latest submission gets through: when a run has settled
    (neither thread can run) with the worker alive, the slot is empty, the
    tuple submitted last is the tuple consumed last, and the signals
    emitted are the outcomes of the consumed tuples, ending with its
    own. *)
Theorem latest_consumed (subs : list Parameters) (p : Parameters) (s : state) :
  runs (subs ++ [p]) s -> quiescent s -> wpc s = W_acquire ->
  parameters s = None
  /\ exists done,
       consumed s = done ++ [p]
       /\ delivered s = outcomes done ++ outcomes [p].
Proof.
  intros Hr Hq Hw.
  pose proof (runs_reachable _ _ Hr) as Hreach.
  split; [now apply settled_slot_empty|].
  destruct (latest_settled subs p s Hr Hq Hw) as [done Hd].
  exists done. split; [assumption|].
  rewrite (delivered_at_acquire s Hreach Hw), Hd.
  unfold outcomes. apply flat_map_app.
Qed.

(** ** Encoder and rasterizer calls *)

(** X8. The encoder is called exactly once on each tuple
    [get_parameters] returns, in the order returned: the tuples encoded so
    far are the consumed ones, short of the one just taken. *)
Theorem encoded_once (s : state) :
  reachable s -> consumed s = encoded s ++ awaiting_encoder (wpc s).
Proof.
  induction 1 as [|s s' Hr IH Hstep]; [reflexivity|].
  destruct Hstep as [[Hstep | Hstep] | p Hstep].
  - apply gui_step_worker in Hstep as [Hw Htr].
    unfold consumed, encoded in *. now rewrite Hw, Htr.
  - destruct s as [g w sl sem mu tr]; unfold worker_step, mutex_free in Hstep;
      unfold consumed, encoded in *;
      cbn [gpc wpc parameters semaphore mutex trace] in *.
    destruct w; invert_some; cbn in *;
      rewrite ?flat_map_app; cbn; rewrite ?app_nil_r in *;
      try assumption;
      try (rewrite IH; destruct e; cbn; now rewrite app_nil_r);
      try (destruct local; cbn; rewrite ?app_nil_r; congruence);
      try (rewrite IH; cbn; now rewrite ?app_nil_r).
  - apply call_set_parameters_spec in Hstep as [_ ->]. exact IH.
Qed.

Lemma awaiting_png_raise (p : Parameters) (e : exception) :
  awaiting_png (raise_in_try p e) = [].
Proof.
  destruct e; reflexivity.
Qed.

(** X9. The rasterizer is called exactly on the tuples the encoder
    accepted, once each, in order, and with the scale of that very tuple:
    the scales [png] was called with are the scales of the accepted tuples
    among those encoded, short of the one whose symbol was just made. *)
Theorem rasterized_accepted (s : state) :
  reachable s ->
  map scale (filter accepted (encoded s))
  = rasterized s ++ awaiting_png (wpc s).
Proof.
  induction 1 as [|s s' Hr IH Hstep]; [reflexivity|].
  destruct Hstep as [[Hstep | Hstep] | p Hstep].
  - apply gui_step_worker in Hstep as [Hw Htr].
    unfold rasterized, encoded in *. now rewrite Hw, Htr.
  - destruct s as [g w sl sem mu tr]; unfold worker_step, mutex_free in Hstep;
      unfold rasterized, encoded in *;
      cbn [gpc wpc parameters semaphore mutex trace] in *.
    destruct w; invert_some;
      cbn [gpc wpc parameters semaphore mutex trace log set_wpc set_slot
           set_mutex set_semaphore awaiting_png] in *;
      rewrite ?awaiting_png_raise;
      rewrite ?flat_map_app, ?filter_app, ?map_app; cbn [flat_map app];
      rewrite ?app_nil_r in *; try assumption.
    + rewrite IH. cbn [filter]. unfold accepted. rewrite Heqs. reflexivity.
    + rewrite IH. cbn [filter]. unfold accepted. rewrite Heqs. cbn.
      now rewrite app_nil_r.
  - apply call_set_parameters_spec in Hstep as [_ ->]. exact IH.
Qed.

(** ** How the worker can end *)

Lemma death_inv_step (s s' : state) :
  pc_sound (wpc s) -> accounted s -> death_inv s -> step s s' ->
  death_inv s'.
Proof.
  intros Hs (done & Hc & _) Hd [[Hstep | Hstep] | p Hstep];
    unfold death_inv in *.
  - apply gui_step_worker in Hstep as [Hw Htr].
    unfold consumed in *. now rewrite Hw, Htr.
  - destruct s as [g w sl sem mu tr]; unfold worker_step, mutex_free in Hstep;
      cbn [gpc wpc parameters semaphore mutex trace] in *.
    destruct w; invert_some; cbn in *; auto.
    + apply in_or_app; right; now left.
    + assert (Hp : process p = inr e)
        by (unfold process; now rewrite Heqs).
      assert (Hin : In p (consumed (mkState g (W_create p) sl sem mu
                                      (tr ++ [EvCreate p])))).
      { unfold consumed in *; cbn. rewrite flat_map_app; cbn.
        rewrite app_nil_r, Hc. apply in_or_app; right; now left. }
      destruct e as [msg|msg|cls msg]; cbn; [exact I| |];
        (split; [reflexivity|]; right; exists p; split; assumption).
    + assert (Hp : process p = inr e)
        by (unfold process; now rewrite Hs, Heqs).
      assert (Hin : In p (consumed (mkState g (W_png p qr) sl sem mu
                                      (tr ++ [EvPng (scale p)])))).
      { unfold consumed in *; cbn. rewrite flat_map_app; cbn.
        rewrite app_nil_r, Hc. apply in_or_app; right; now left. }
      destruct e as [msg|msg|cls msg]; cbn; [exact I| |];
        (split; [reflexivity|]; right; exists p; split; assumption).
  - apply call_set_parameters_spec in Hstep as [_ ->]. exact Hd.
Qed.

Lemma death_inv_reachable (s : state) : reachable s -> death_inv s.
Proof.
  induction 1 as [|s s' Hr IH Hstep]; [exact I|].
  destruct (accounted_reachable s Hr) as [Hs Ha].
  eapply death_inv_step; eassumption.
Qed.

(** X10. How the worker can end: in every reachable state in which the
    worker has left [run] with [e], [e] is not a [ValueError], and either
    it is the [TypeError] of unpacking a [None] that [get_parameters]
    returned, or the encoder or rasterizer raised it on a consumed tuple.
    With an encoder that only ever refuses with [ValueError], the empty
    take is the one way the worker ends. *)
Theorem worker_death (s : state) (e : exception) :
  reachable s -> wpc s = W_dead e ->
  is_ValueError e = false
  /\ ((e = unpack_None /\ In (EvTake None) (trace s))
      \/ exists p, In p (consumed s) /\ process p = inr e)
  /\ ((forall p, In p (consumed s) -> outcome p <> None) ->
      e = unpack_None /\ In (EvTake None) (trace s)).
Proof.
  intros Hr Hw. pose proof (death_inv_reachable s Hr) as Hd.
  unfold death_inv in Hd. rewrite Hw in Hd. destruct Hd as [Hv Hd].
  split; [assumption|]. split; [assumption|].
  intros Hall. destruct Hd as [Hd | (p & Hin & Hp)]; [assumption|].
  exfalso. apply (Hall p Hin). unfold outcome. rewrite Hp.
  destruct e; [discriminate | reflexivity | reflexivity].
Qed.

(** ** What the window shows *)

Lemma display_after_snoc (sgs : list signal) (sg : signal) :
  display_after (sgs ++ [sg]) = on_signal display_init sg.
Proof.
  unfold display_after. rewrite fold_left_app. cbn.
  destruct sg; reflexivity.
Qed.

(** X11. The Save action follows the label: once the GUI thread has
    handled the signals [sgs], the label shows the pixmap of the last
    signal if that was [resultReady], its message if that was
    [errorOccurred]; Save is enabled exactly when the label shows a pixmap
    or no signal has been handled yet. *)
Theorem save_follows_label (sgs : list signal) :
  (forall image,
     label (display_after sgs) = label_pixmap image <->
     exists sgs', sgs = sgs' ++ [resultReady image])
  /\ (forall message,
        label (display_after sgs) = label_text message <->
        exists sgs', sgs = sgs' ++ [errorOccurred message])
  /\ (save_action_enabled (display_after sgs) = true <->
      sgs = [] \/ exists image, label (display_after sgs) = label_pixmap image).
Proof.
  induction sgs as [|sg sgs' _] using rev_ind.
  - repeat split; cbn; try discriminate; auto.
    + intros [l H]. destruct l; discriminate.
    + intros [l H]. destruct l; discriminate.
  - rewrite display_after_snoc. repeat split.
    + intros H. destruct sg; cbn in H; inversion H; subst. eauto.
    + intros [l H]. apply app_inj_tail in H as [_ ->]. reflexivity.
    + intros H. destruct sg; cbn in H; inversion H; subst. eauto.
    + intros [l H]. apply app_inj_tail in H as [_ ->]. reflexivity.
    + intros H. right. destruct sg; cbn in *; [eauto | discriminate].
    + intros [H | [image H]].
      * destruct sgs'; discriminate.
      * destruct sg; cbn in *; [reflexivity | discriminate].
Qed.


(** X13. End to end: when a run has settled with the worker alive, and
    the GUI thread has handled every signal emitted, the window shows the
    outcome of the tuple submitted last: its image with Save enabled, or
    its message with Save disabled. *)
Theorem window_shows_latest
  (subs : list Parameters) (p : Parameters) (s : state) (sg : signal) :
  runs (subs ++ [p]) s -> quiescent s -> wpc s = W_acquire ->
  outcome p = Some sg ->
  display_after (delivered s) = on_signal display_init sg.
Proof.
  intros Hr Hq Hw Hp.
  destruct (latest_settled subs p s Hr Hq Hw) as [done Hd].
  rewrite (delivered_at_acquire s (runs_reachable _ _ Hr) Hw), Hd.
  rewrite outcomes_snoc, Hp.
  apply display_after_snoc.
Qed.

(** The worker leaves its critical section within three statements,
    without touching the GUI thread. *)
Lemma lock_scope_release (s : state) :
  mutex s = Some Worker -> worker_in_critical (wpc s) = true ->
  exists n s',
    n <= 3 /\ worker_steps n s = Some s' /\ mutex s' = None
    /\ gpc s' = gpc s.
Proof.
  destruct s as [g w sl sem mu tr]; cbn. intros -> Hw.
  destruct w; try discriminate.
  - exists 3; eexists. split; [lia|]. split; [reflexivity|].
    split; reflexivity.
  - exists 2; eexists. split; [lia|]. split; [reflexivity|].
    split; reflexivity.
  - exists 1; eexists. split; [lia|]. split; [reflexivity|].
    split; reflexivity.
Qed.

(** X14. [set_parameters] waits only for the worker's critical section:
    called from the event loop in a reachable state, it runs to its end
    without waiting unless the worker is inside its [with] block, leaving
    [p] in the slot and a resource in the semaphore and the worker as it
    was; if the worker is inside, the call goes through after at most
    three statements of the worker. *)
Theorem set_parameters_waits_briefly (s : state) (p : Parameters) :
  reachable s -> gpc s = G_idle ->
  (worker_in_critical (wpc s) = false ->
   exists s',
     set_parameters p s = Some s'
     /\ gpc s' = G_idle /\ parameters s' = Some p /\ semaphore s' = 1
     /\ wpc s' = wpc s /\ trace s' = trace s)
  /\ (worker_in_critical (wpc s) = true ->
      set_parameters p s = None
      /\ exists n s1 s',
           n <= 3 /\ worker_steps n s = Some s1
           /\ set_parameters p s1 = Some s').
Proof.
  intros Hr Hg. destruct (sync_inv_reachable s Hr) as (Hm & _ & Hs & _).
  unfold holder in Hm. rewrite Hg in Hm. cbn in Hm. split.
  - intros Hw. rewrite Hw in Hm.
    rewrite (set_parameters_value p s Hg Hm). eexists. split; [reflexivity|].
    cbn. repeat split. destruct (semaphore s) as [|[|k]]; cbn; lia.
  - intros Hw. rewrite Hw in Hm. split.
    + unfold set_parameters, call_set_parameters. rewrite Hg. cbn.
      unfold mutex_free. cbn. now rewrite Hm.
    + destruct (lock_scope_release s Hm Hw)
        as (n & s1 & Hn & Hsteps & Hfree & Hg1).
      exists n, s1. rewrite Hg in Hg1.
      rewrite (set_parameters_value p s1 Hg1 Hfree). eauto.
Qed.

(** ** Runs without the race *)

Lemma calm_gui_not_at_lock (s s' : state) :
  gui_step s = Some s' \/ (exists p, call_set_parameters p s = Some s') ->
  (wpc s = W_lock -> worker_step s = Some s') ->
  wpc s <> W_lock.
Proof.
  intros Hstep Hcalm Hl. specialize (Hcalm Hl).
  assert (Hw : wpc s' = wpc s).
  { destruct Hstep as [Hstep | [p Hstep]].
    - now apply gui_step_worker in Hstep.
    - now apply call_set_parameters_spec in Hstep as [_ ->]. }
  unfold worker_step in Hcalm. rewrite Hl in Hcalm.
  destruct (mutex_free s); [|discriminate].
  inversion Hcalm; subst s'. cbn in Hw. congruence.
Qed.

Lemma calm_inv_step (s s' : state) :
  sync_inv s -> calm_inv s -> calm_step s s' -> calm_inv s'.
Proof.
  intros (Hm & Hx & Hs & Hrel) (I1 & I2 & I3 & I4 & I5 & I6) [Hstep Hcalm].
  destruct Hstep as [[Hstep | Hstep] | p Hstep].
  - assert (Hnl : wpc s <> W_lock)
      by (eapply calm_gui_not_at_lock; eauto).
    unfold calm_inv, holder in *.
    case_pcs s; cbn in Hstep, Hx, Hm; try discriminate; try congruence;
      unfold mutex_free in Hstep; cbn in Hstep; invert_some; cbn in *;
      repeat split; try assumption; try discriminate; try lia;
      try (intros; discriminate);
      try (intros [?|?]; discriminate);
      try (intros; apply I1; apply Nat.eqb_neq in Heqb; lia);
      try (intros; apply I4; auto; fail);
      try (intros; apply I3; auto; fail);
      try (intros; apply I1; lia).
  - clear Hcalm. unfold calm_inv, holder in *.
    destruct s as [g w sl sem mu tr]; unfold worker_step, mutex_free in Hstep;
      cbn [gpc wpc parameters semaphore mutex trace] in *.
    destruct w; invert_some; cbn in *;
      repeat split; try assumption; try discriminate; try lia;
      try (intros; discriminate);
      try (intros [?|?]; discriminate);
      try (destruct e; cbn; exact I);
      try (intros; apply I3; auto; fail);
      try (intros; apply I4; auto; fail).
    all: try (intros Hin; apply in_app_or in Hin as [Hin | [Hin | []]];
              [now apply I6 | try discriminate; congruence]).
    all: try (intros; apply I1; destruct sem; [discriminate | lia]).
    all: try (destruct e; cbn; intros; try discriminate;
              match goal with H : _ \/ _ |- _ => destruct H; discriminate end).
    all: destruct g; cbn in Hx; try discriminate;
      intros [?|?]; discriminate.
  - assert (Hnl : wpc s <> W_lock)
      by (eapply calm_gui_not_at_lock; eauto).
    apply call_set_parameters_spec in Hstep as [Hg ->].
    unfold calm_inv in *; cbn. rewrite Hg in I4.
    repeat split; try assumption. intros [?|?]; discriminate.
Qed.

Lemma calm_reachable_reachable (s : state) :
  calm_reachable s -> reachable s.
Proof.
  induction 1 as [|s s' Hr IH [Hstep _]]; [constructor|].
  econstructor; eassumption.
Qed.

Lemma calm_inv_reachable (s : state) : calm_reachable s -> calm_inv s.
Proof.
  induction 1 as [|s s' Hr IH Hstep].
  - unfold calm_inv; cbn. repeat split; auto; try lia;
      try discriminate; intros [?|?]; discriminate.
  - eapply calm_inv_step; [|eassumption|eassumption].
    now apply sync_inv_reachable, calm_reachable_reachable.
Qed.

(** X16. The wake-signal discipline holds wherever the race is absent:
    in every run in which the GUI thread runs no statement while the
    worker stands between its [acquire] and its lock, a resource in the
    semaphore always means an occupied slot, no [get_parameters] returns
    [None], and a worker that has left [run] was ended by an exception of
    the encoder or rasterizer on a consumed tuple. *)
Theorem wake_discipline_without_race (s : state) :
  calm_reachable s ->
  (1 <= semaphore s -> parameters s <> None)
  /\ ~ In (EvTake None) (trace s)
  /\ (forall ret, wpc s = W_unpack ret -> ret <> None)
  /\ (forall e, wpc s = W_dead e ->
        exists p, In p (consumed s) /\ process p = inr e).
Proof.
  intros Hc.
  destruct (calm_inv_reachable s Hc) as (I1 & _ & _ & _ & I5 & I6).
  split; [assumption|]. split; [assumption|]. split.
  - intros ret Hw. now rewrite Hw in I5.
  - intros e Hw.
    pose proof (death_inv_reachable s (calm_reachable_reachable s Hc)) as Hd.
    unfold death_inv in Hd. rewrite Hw in Hd.
    destruct Hd as (_ & [[_ Hin] | H]); [contradiction | assumption].
Qed.

Lemma play_calm_reachable (ms : list move) :
  forall s s',
    calm_reachable s -> play_calm ms s = Some s' -> calm_reachable s'.
Proof.
  induction ms as [|m ms IH]; cbn; intros s s' Hr H.
  - now inversion H; subst.
  - destruct (calm_move m s) eqn:Hc; [|discriminate].
    destruct (play_move m s) as [s1|] eqn:Hm; [|discriminate].
    eapply IH; [|eassumption]. econstructor; [eassumption|].
    unfold calm_move in Hc. split.
    + destruct m as [| |p]; cbn in Hm.
      * now apply step_internal, step_gui.
      * now apply step_internal, step_worker.
      * eapply step_submit; eassumption.
    + intros Hl. rewrite Hl in Hc.
      destruct m; try discriminate. exact Hm.
Qed.

(** ** Paths and [until] *)

Lemma play_internal (ms : list move) :
  forall s s',
    submissions ms = [] -> play ms s = Some s' ->
    internal_steps (length ms) s s'.
Proof.
  induction ms as [|m ms IH]; cbn; intros s s' Hsub H.
  - inversion H; subst. constructor.
  - destruct (play_move m s) as [s1|] eqn:Hm; [|discriminate].
    destruct m as [| |p]; cbn in Hm, Hsub; try discriminate.
    + econstructor; [apply step_gui; eassumption | now apply IH].
    + econstructor; [apply step_worker; eassumption | now apply IH].
Qed.

(** When [P] only holds of states in which neither thread can run, a path
    of internal steps that ends in such a state ends in [P]. *)
Lemma until_path_end (Q P : state -> Prop) (n : nat) (s s' : state) :
  (forall x, P x -> quiescent x) ->
  until Q P s -> internal_steps n s s' -> quiescent s' -> P s'.
Proof.
  intros HP Hu Hpath Hq.
  induction Hpath as [s|n s s1 s2 Hstep Hpath IH].
  - destruct Hu as [Hnow | _ [x Hx] _]; [assumption|].
    destruct Hq as [Hg Hw]. destruct Hx as [Hx | Hx]; congruence.
  - destruct Hu as [Hnow | _ _ Hall].
    + destruct (HP s Hnow) as [Hg Hw].
      destruct Hstep as [Hx | Hx]; congruence.
    + apply IH; [now apply Hall | assumption].
Qed.

End PipelineFacts.

(** ** The widgets *)

Lemma bound_range (lo v hi : Z) :
  (lo <= hi)%Z -> (lo <= bound lo v hi <= hi)%Z.
Proof.
  unfold bound; lia.
Qed.

Lemma bound_id (lo v hi : Z) : (lo <= v <= hi)%Z -> bound lo v hi = v.
Proof.
  unfold bound; lia.
Qed.

Lemma ui_inv_init : ui_inv init_ui.
Proof.
  unfold ui_inv; cbn. repeat split; try reflexivity; discriminate.
Qed.

Lemma setCurrentIndex_items (i : nat) (b : QComboBox) :
  items (setCurrentIndex i b) = items b.
Proof.
  unfold setCurrentIndex. destruct (Nat.ltb i (count b)); reflexivity.
Qed.

Lemma ui_inv_event (e : ui_event) (w : MainWindow) :
  ui_inv w -> ui_inv (apply_event e w).
Proof.
  intros (He & Hm & Hv1 & Hv2 & Hv & Hs1 & Hs2 & Hs).
  destruct e; unfold ui_inv; cbn;
    rewrite ?setCurrentIndex_items, ?Hv1, ?Hv2, ?Hs1, ?Hs2;
    repeat split; auto; try apply bound_range; try lia.
Qed.

Lemma currentData_offered (b : QComboBox) :
  currentData b = None \/ In (currentData b) (map snd (items b)).
Proof.
  unfold currentData.
  destruct (nth_error (items b) (currentIndex b)) as [[label d]|] eqn:Hn;
    [right|now left].
  apply nth_error_In in Hn. now apply (in_map snd) in Hn.
Qed.

Lemma request_well_formed (w : MainWindow) :
  ui_inv w -> well_formed (request_new_qr_code w).
Proof.
  intros (He & Hm & Hv1 & Hv2 & Hv & Hs1 & Hs2 & Hs).
  unfold well_formed, request_new_qr_code; cbn. repeat split.
  - unfold offered_errors.
    destruct (currentData_offered (error_correction_box w)) as [-> | H];
      [now left | right; now rewrite He in H].
  - unfold get_version. destruct (Z.eqb_spec (value (version_box w)) 0);
      cbn; [exact I | lia].
  - unfold offered_modes.
    destruct (currentData_offered (mode_box w)) as [-> | H];
      [now left | now rewrite Hm in H].
  - lia.
  - lia.
Qed.

Lemma app_reachable_inv `{E : Encoder} (w : MainWindow) (s : state) :
  app_reachable (w, s) -> ui_inv w /\ all_ok well_formed s.
Proof.
  intros Hr. remember (w, s) as st eqn:Est. revert w s Est.
  induction Hr as [|a [w0 s0] st' Hr IH Hp]; intros w s Est.
  - inversion Est; subst. split; [apply ui_inv_init|].
    eapply all_ok_submit; [apply all_ok_init| |reflexivity].
    apply request_well_formed, ui_inv_init.
  - subst st'. destruct (IH w0 s0 eq_refl) as [Hui Hok].
    destruct a as [| |e]; cbn in Hp.
    + apply with_window_some in Hp as [-> Hp]. split; [assumption|].
      eapply all_ok_internal; [eassumption|]. now apply step_gui.
    + apply with_window_some in Hp as [-> Hp]. split; [assumption|].
      eapply all_ok_internal; [eassumption|]. now apply step_worker.
    + destruct (gpc s0) eqn:Hg; try discriminate.
      destruct (signal_fires e w0).
      * apply with_window_some in Hp as [-> Hp].
        split; [now apply ui_inv_event|].
        eapply all_ok_submit; [eassumption| |eassumption].
        now apply request_well_formed, ui_inv_event.
      * inversion Hp; subst. split; [now apply ui_inv_event | assumption].
Qed.


Lemma offers_iff (b : QComboBox) (m : option string) :
  offers b m <-> In m (map snd (items b)).
Proof.
  unfold offers, currentData, setCurrentIndex, count. split.
  - intros (i & Hi & Hd). apply Nat.ltb_lt in Hi as Hlt. rewrite Hlt in Hd.
    cbn in Hd. destruct (nth_error (items b) i) as [[label d]|] eqn:Hn.
    + subst d. apply nth_error_In in Hn. now apply (in_map snd) in Hn.
    + apply nth_error_None in Hn. lia.
  - intros Hin. apply in_map_iff in Hin as ([label d] & Hd & Hin).
    cbn in Hd; subst d.
    apply In_nth_error in Hin as (i & Hn).
    assert (Hi : i < length (items b))
      by (apply nth_error_Some; rewrite Hn; discriminate).
    exists i. split; [assumption|].
    apply Nat.ltb_lt in Hi. rewrite Hi. cbn. now rewrite Hn.
Qed.

(** The earlier variants of the program did offer Kanji. *)
Lemma qrgui_offers_kanji : offers qrgui_mode_box (Some "kanji").
Proof.
  exists 4. split; [cbn; lia | reflexivity].
Qed.

(** C9, as the specification has it: each of the five values of the mode
    field can be picked in the mode box [init_ui] builds.  It cannot: no
    item of that box carries "kanji". *)
Lemma kanji_not_offered :
  ~ (forall m, In m spec_modes -> offers (mode_box init_ui) m).
Proof.
  intros H. specialize (H (Some "kanji")).
  assert (Hin : In (Some "kanji") spec_modes) by (cbn; tauto).
  apply H, offers_iff in Hin. cbn in Hin.
  repeat (destruct Hin as [Hin|Hin]; [discriminate|]). exact Hin.
Qed.

(** C9, amended.  The mode box of [main.pyw] offers exactly Automatic
    ([None]), "numeric", "alphanumeric" and "binary"; picking an item makes
    its user data the mode of the tuple handed to [set_parameters], and
    every tuple [pyqrcode.create] is called on has one of these four
    modes. *)
Theorem mode_domain `{E : Encoder} (w : MainWindow) (s : state) :
  app_reachable (w, s) ->
  offered_modes = [None; Some "numeric"; Some "alphanumeric"; Some "binary"]
  /\ (forall m, offers (mode_box w) m <-> In m offered_modes)
  /\ (forall i, i < count (mode_box w) ->
        mode (request_new_qr_code (apply_event (mode_selected i) w)) =
        nth i offered_modes None)
  /\ In (mode (request_new_qr_code w)) offered_modes
  /\ (forall p, In p (encoded s) -> In (mode p) offered_modes).
Proof.
  intros Hr. destruct (app_reachable_inv w s Hr) as [Hui Hok].
  pose proof Hui as (_ & Hm & _).
  split; [reflexivity|]. split; [|split; [|split]].
  - intros m. rewrite offers_iff, Hm. reflexivity.
  - intros i Hi. cbn. unfold currentData, setCurrentIndex, count in *.
    apply Nat.ltb_lt in Hi as Hlt. rewrite Hlt. cbn. rewrite Hm in *.
    cbn in Hi. do 4 (destruct i as [|i]; [reflexivity|]). lia.
  - apply (request_well_formed w Hui).
  - intros p Hp. apply (all_ok_encoded well_formed s p Hok Hp).
Qed.

(** C8. Version sentinel: the version box holds a value between 0 and 40
    and can be given each of them; at 0 the tuple handed to
    [set_parameters] carries [None], at [v] from 1 to 40 it carries [v];
    every tuple [pyqrcode.create] is called on has version [None] or a
    number from 1 to 40. *)
Theorem version_sentinel `{E : Encoder} (w : MainWindow) (s : state) :
  app_reachable (w, s) ->
  (0 <= value (version_box w) <= 40)%Z
  /\ (value (version_box w) = 0%Z ->
      version (request_new_qr_code w) = None)
  /\ (forall v, (1 <= v <= 40)%Z -> value (version_box w) = v ->
        version (request_new_qr_code w) = Some v)
  /\ (forall v, (0 <= v <= 40)%Z ->
        value (version_box (apply_event (version_entered v) w)) = v)
  /\ valid_version (version (request_new_qr_code w))
  /\ (forall p, In p (encoded s) -> valid_version (version p)).
Proof.
  intros Hr. destruct (app_reachable_inv w s Hr) as [Hui Hok].
  pose proof Hui as (_ & _ & Hv1 & Hv2 & Hv & _).
  split; [assumption|]. split; [|split; [|split; [|split]]].
  - intros H0. cbn. unfold get_version. now rewrite H0.
  - intros v Hrange Hval. cbn. unfold get_version. rewrite Hval.
    destruct (Z.eqb_spec v 0); [lia | reflexivity].
  - intros v Hrange. cbn. rewrite Hv1, Hv2. now apply bound_id.
  - apply (request_well_formed w Hui).
  - intros p Hp. apply (all_ok_encoded well_formed s p Hok Hp).
Qed.

(** C10. Scale bound: the tuple of the freshly built window has scale 5;
    the tuple the widgets make always has a scale from 1 to 10, and so has
    every tuple [pyqrcode.create] is called on and every scale [png] is
    called with. *)
Theorem scale_bounded `{E : Encoder} (w : MainWindow) (s : state) :
  app_reachable (w, s) ->
  scale (request_new_qr_code init_ui) = 5%Z
  /\ (1 <= scale (request_new_qr_code w) <= 10)%Z
  /\ (forall p, In p (encoded s) -> (1 <= scale p <= 10)%Z)
  /\ (forall sc, In sc (rasterized s) -> (1 <= sc <= 10)%Z).
Proof.
  intros Hr. destruct (app_reachable_inv w s Hr) as [Hui Hok].
  split; [reflexivity|]. split; [|split].
  - apply (request_well_formed w Hui).
  - intros p Hp. apply (all_ok_encoded well_formed s p Hok Hp).
  - intros sc Hsc.
    destruct (all_ok_rasterized well_formed s sc Hok Hsc) as (p & Hp & <-).
    apply Hp.
Qed.

(** The lock scope is what lets the two threads overlap: the GUI thread can
    be inside [set_parameters], holding the mutex, while the worker is
    calling the encoder. *)
Lemma submit_while_encoding :
  observe (run_schedule
             (calm_schedule ++ [ActUser (textEdited "A"); ActGui])
             (app_init (E := sample_encoder)))
  = Some (G_write typed_A, W_create initial_request, None, 0)
  /\ option_map (fun st => mutex (snd st))
       (run_schedule
          (calm_schedule ++ [ActUser (textEdited "A"); ActGui])
          (app_init (E := sample_encoder)))
     = Some (Some GuiThread).
Proof.
  split; vm_compute; reflexivity.
Qed.

(** ** The race between [get_parameters] and [set_parameters] *)

(** [get_parameters] takes the semaphore before it takes the mutex.  A
    [set_parameters] that runs in between finds the semaphore at zero
    although the slot is still occupied, and releases it a second time for
    what will be a single take.  Whatever the encoder, the take that
    follows leaves a resource in the semaphore over an empty slot. *)
Lemma wake_left_over_empty_slot `{E : Encoder} :
  observe (run_schedule (race_overwrite ++ race_release ++ race_take) app_init)
  = Some (G_idle, W_unpack (Some typed_A), None, 1).
Proof.
  vm_compute; reflexivity.
Qed.

(** A worker that finds a resource in the semaphore while the slot is empty
    is handed [None] and leaves [run]. *)
Lemma empty_take_ends_run `{E : Encoder} (s : state) :
  wpc s = W_acquire -> parameters s = None -> mutex s = None ->
  0 < semaphore s ->
  exists s',
    worker_steps 6 s = Some s'
    /\ wpc s' = W_dead unpack_None
    /\ delivered s' = delivered s.
Proof.
  destruct s as [g w sl sem mu tr]; cbn; intros -> -> -> Hs.
  destruct sem as [|sem]; [lia|].
  eexists. split; [reflexivity|]. split; [reflexivity|].
  unfold delivered; cbn. rewrite flat_map_app; cbn. now rewrite app_nil_r.
Qed.

(** Whatever the encoder, if it answers the tuple "A" at all, the race
    ends [run] right after the signal for "A". *)
Lemma race_ends_run `{E : Encoder} :
  outcome typed_A <> None ->
  exists w s n s',
    run_schedule (race_overwrite ++ race_release ++ race_take) app_init
    = Some (w, s)
    /\ worker_steps n s = Some s'
    /\ wpc s' = W_dead unpack_None
    /\ delivered s' = outcomes [typed_A].
Proof.
  intros Hout. eexists; eexists.
  pose (s := mkState G_idle (W_unpack (Some typed_A)) None 1 None
               [EvTake (Some typed_A)]).
  destruct (iteration s typed_A eq_refl)
    as (n & s1 & Hn & (Hg & Hsl & Hsem & Hmu) & _ & _ & Hit).
  assert (H1 : wpc s1 = W_acquire
               /\ delivered s1 = outcomes [typed_A]).
  { unfold outcomes, outcome in *; cbn.
    destruct (process typed_A) as [image|[msg|msg|cls msg]]; cbn in Hit;
      try (exfalso; apply Hout; reflexivity); destruct Hit as [-> ->];
      split; reflexivity. }
  destruct H1 as [Hw Hd].
  destruct (empty_take_ends_run s1 Hw Hsl Hmu) as (s2 & H6 & Hdead & Hd2).
  { rewrite Hsem. cbn. lia. }
  exists (n + 6), s2. split; [vm_compute; reflexivity|].
  split; [eapply worker_steps_app; eassumption|].
  split; [assumption | congruence].
Qed.

(** C2. Wake-signal discipline fails on the code.  On the stand-in
    encoder, along [race_schedule]: the GUI thread reaches the write of
    "A" while the slot still holds the startup tuple and the semaphore is
    at zero, because the worker is between its [acquire] and its lock; the
    overwrite is followed by a release; the worker takes "A", leaving the
    semaphore at one over an empty slot; after emitting the image the next
    [get_parameters] returns [None] and the unpacking ends [run] with a
    [TypeError]. *)
Theorem spurious_wake :
  observe (run_schedule race_overwrite (app_init (E := sample_encoder)))
  = Some (G_write typed_A, W_lock, Some initial_request, 0)
  /\ observe (run_schedule (race_overwrite ++ race_release)
                (app_init (E := sample_encoder)))
     = Some (G_idle, W_lock, Some typed_A, 1)
  /\ observe (run_schedule
                (race_overwrite ++ race_release ++ race_take)
                (app_init (E := sample_encoder)))
     = Some (G_idle, W_unpack (Some typed_A), None, 1)
  /\ observe (run_schedule race_schedule (app_init (E := sample_encoder)))
     = Some (G_idle, W_dead unpack_None, None, 0)
  /\ observe_trace (run_schedule race_schedule (app_init (E := sample_encoder)))
     = Some [EvTake (Some typed_A); EvCreate typed_A; EvPng 5;
             EvEmit (resultReady (E := sample_encoder) (repeat Byte.x00 5));
             EvTake None].
Proof.
  repeat split; vm_compute; reflexivity.
Qed.

(** ** The theorems at concrete inputs *)

(** Three submissions on the fresh mailbox, then one take. *)
Lemma latest_wins_witness :
  exists s1 s2 n s3,
    submit_all (E := sample_encoder)
      ([initial_request; too_long] ++ [typed_A]) init = Some s1
    /\ set_parameters typed_A (init (E := sample_encoder)) = Some s1
    /\ get_parameters s1 = Some (Some typed_A, s2)
    /\ parameters s2 = None
    /\ semaphore s2 = 0
    /\ trace s2 = trace (init (E := sample_encoder)) ++ [EvTake (Some typed_A)]
    /\ worker_steps n s2 = Some s3
    /\ reachable s3
    /\ worker_step s3 = None
    /\ consumed s3 = consumed (init (E := sample_encoder)) ++ [typed_A]
    /\ encoded s3 = encoded (init (E := sample_encoder)) ++ [typed_A]
    /\ delivered s3 =
       delivered (init (E := sample_encoder)) ++ outcomes [typed_A].
Proof.
  apply (latest_wins (E := sample_encoder) init
           [initial_request; too_long] typed_A);
    [constructor | reflexivity | reflexivity].
Defined.

(** The refused tuple, then "A". *)
Lemma validation_error_isolated_witness :
  exists n s1 s2 m s3,
    worker_steps n refused_state = Some s1
    /\ wpc s1 = W_acquire
    /\ delivered s1 =
       delivered refused_state
       ++ [errorOccurred "The data will not fit inside the given version"]
    /\ set_parameters typed_A s1 = Some s2
    /\ worker_steps m s2 = Some s3
    /\ wpc s3 = W_acquire
    /\ consumed s3 = consumed refused_state ++ [typed_A]
    /\ delivered s3 =
       delivered refused_state
       ++ [errorOccurred "The data will not fit inside the given version";
           resultReady (E := sample_encoder) (repeat Byte.x00 5)].
Proof.
  apply (validation_error_isolated refused_state too_long typed_A
           "The data will not fit inside the given version"
           (resultReady (E := sample_encoder) (repeat Byte.x00 5)));
    reflexivity.
Defined.


(** The unpacking of [None]. *)
Lemma unknown_error_fatal_witness :
  exists n s',
    worker_steps n handed_None = Some s'
    /\ wpc s' = W_dead unpack_None
    /\ delivered s' = delivered handed_None
    /\ worker_step s' = None
    /\ forall t, reachable_from s' t ->
                 wpc t = W_dead unpack_None
                 /\ delivered t = delivered handed_None.
Proof.
  apply (unknown_error_fatal handed_None None unpack_None); reflexivity.
Defined.

(** The worker at the call of the encoder. *)
Lemma lock_scope_witness :
  (mutex calm_state = Some Worker ->
   worker_in_critical (wpc calm_state) = true)
  /\ (mutex calm_state = Some GuiThread ->
      gui_in_critical (gpc calm_state) = true)
  /\ (worker_encoding (wpc calm_state) = true ->
      mutex calm_state <> Some Worker)
  /\ (mutex calm_state = Some Worker ->
      exists n s',
        n <= 3 /\ worker_steps n calm_state = Some s' /\ mutex s' = None
        /\ encoded s' = encoded calm_state)
  /\ (mutex calm_state = Some GuiThread ->
      exists s', gui_run 4 calm_state = Some s' /\ mutex s' = None).
Proof.
  apply (lock_scope calm_state).
  apply (app_reachable_core (init_ui, calm_state)).
  apply (run_schedule_reachable calm_schedule app_init);
    [constructor | vm_compute; reflexivity].
Defined.


(** After the user has changed version, mode and scale. *)
Lemma version_sentinel_witness :
  (0 <= value (version_box (fst options_state)) <= 40)%Z
  /\ (value (version_box (fst options_state)) = 0%Z ->
      version (request_new_qr_code (fst options_state)) = None)
  /\ (forall v, (1 <= v <= 40)%Z ->
        value (version_box (fst options_state)) = v ->
        version (request_new_qr_code (fst options_state)) = Some v)
  /\ (forall v, (0 <= v <= 40)%Z ->
        value (version_box
                 (apply_event (version_entered v) (fst options_state))) = v)
  /\ valid_version (version (request_new_qr_code (fst options_state)))
  /\ (forall p, In p (encoded (snd options_state)) ->
        valid_version (version p)).
Proof.
  apply (version_sentinel (E := sample_encoder)
           (fst options_state) (snd options_state)).
  apply (run_schedule_reachable options_schedule app_init);
    [constructor | vm_compute; reflexivity].
Defined.

Lemma mode_domain_witness :
  offered_modes = [None; Some "numeric"; Some "alphanumeric"; Some "binary"]
  /\ (forall m, offers (mode_box (fst options_state)) m <->
                In m offered_modes)
  /\ (forall i, i < count (mode_box (fst options_state)) ->
        mode (request_new_qr_code
                (apply_event (mode_selected i) (fst options_state))) =
        nth i offered_modes None)
  /\ In (mode (request_new_qr_code (fst options_state))) offered_modes
  /\ (forall p, In p (encoded (snd options_state)) ->
        In (mode p) offered_modes).
Proof.
  apply (mode_domain (E := sample_encoder)
           (fst options_state) (snd options_state)).
  apply (run_schedule_reachable options_schedule app_init);
    [constructor | vm_compute; reflexivity].
Defined.

Lemma scale_bounded_witness :
  scale (request_new_qr_code init_ui) = 5%Z
  /\ (1 <= scale (request_new_qr_code (fst options_state)) <= 10)%Z
  /\ (forall p, In p (encoded (snd options_state)) ->
        (1 <= scale p <= 10)%Z)
  /\ (forall sc, In sc (rasterized (snd options_state)) ->
        (1 <= sc <= 10)%Z).
Proof.
  apply (scale_bounded (E := sample_encoder)
           (fst options_state) (snd options_state)).
  apply (run_schedule_reachable options_schedule app_init);
    [constructor | vm_compute; reflexivity].
Defined.

(** ** The error-correction box *)

Lemma error_box_inv_event (e : ui_event) (w : MainWindow) :
  error_box_inv w -> error_box_inv (apply_event e w).
Proof.
  intros [Hi Hc]. destruct e; unfold error_box_inv; cbn; auto.
  unfold setCurrentIndex, count.
  destruct (Nat.ltb_spec i (length (items (error_correction_box w))));
    cbn; split; auto.
  rewrite Hi in *. assumption.
Qed.

Lemma error_box_request (w : MainWindow) :
  error_box_inv w -> In (error (request_new_qr_code w)) error_levels.
Proof.
  intros [Hi Hc]. unfold error_levels. cbn. unfold currentData.
  rewrite Hi.
  destruct (nth_error (items (error_correction_box init_ui))
              (currentIndex (error_correction_box w)))
    as [[lbl d]|] eqn:Hn.
  - apply nth_error_In in Hn. now apply (in_map snd) in Hn.
  - apply nth_error_None in Hn. unfold count in Hc. lia.
Qed.

(** Whatever [init_ui] establishes of the widgets and user events keep,
    and whatever that gives of the tuple built from them, holds of every
    window and of every tuple in the pipeline. *)
Lemma app_reachable_all_ok `{E : Encoder}
  (I : MainWindow -> Prop) (P : Parameters -> Prop) :
  I init_ui ->
  (forall e w, I w -> I (apply_event e w)) ->
  (forall w, I w -> P (request_new_qr_code w)) ->
  forall w s, app_reachable (w, s) -> I w /\ all_ok P s.
Proof.
  intros H0 Hev Hreq w s Hr. remember (w, s) as st eqn:Est. revert w s Est.
  induction Hr as [|a [w0 s0] st' Hr IH Hp]; intros w s Est.
  - inversion Est; subst. split; [assumption|].
    eapply all_ok_submit; [apply all_ok_init| |reflexivity]. auto.
  - subst st'. destruct (IH w0 s0 eq_refl) as [Hui Hok].
    destruct a as [| |e]; cbn in Hp.
    + apply with_window_some in Hp as [-> Hp]. split; [assumption|].
      eapply all_ok_internal; [eassumption|]. now apply step_gui.
    + apply with_window_some in Hp as [-> Hp]. split; [assumption|].
      eapply all_ok_internal; [eassumption|]. now apply step_worker.
    + destruct (gpc s0) eqn:Hg; try discriminate.
      destruct (signal_fires e w0).
      * apply with_window_some in Hp as [-> Hp]. split; [auto|].
        eapply all_ok_submit; [eassumption| |eassumption]. auto.
      * inversion Hp; subst. split; [auto | assumption].
Qed.

(** X15. Error-correction domain: the box offers "H", "Q", "M" and "L"
    and starts on "H"; the tuple built from the widgets always carries one
    of the four, never [None], and so does every tuple [pyqrcode.create]
    is called on; picking the item at index [i] makes its level the one
    submitted. *)
Theorem error_domain `{E : Encoder} (w : MainWindow) (s : state) :
  app_reachable (w, s) ->
  error_levels = [Some "H"; Some "Q"; Some "M"; Some "L"]
  /\ error (request_new_qr_code init_ui) = Some "H"
  /\ In (error (request_new_qr_code w)) error_levels
  /\ (forall i, i < 4 ->
        error (request_new_qr_code
                 (apply_event (error_correction_selected i) w))
        = nth i error_levels None)
  /\ (forall p, In p (encoded s) -> In (error p) error_levels).
Proof.
  intros Hr.
  destruct (app_reachable_all_ok error_box_inv
              (fun p => In (error p) error_levels)) with (w := w) (s := s)
    as [[Hi Hc] Hok]; auto.
  - split; [reflexivity | cbn; lia].
  - apply error_box_inv_event.
  - apply error_box_request.
  - split; [reflexivity|]. split; [reflexivity|]. split; [|split].
    + apply error_box_request. now split.
    + intros i Hlt. cbn. unfold currentData, setCurrentIndex, count.
      rewrite Hi. cbn.
      do 4 (destruct i as [|i]; [reflexivity|]). lia.
    + intros p Hp.
      apply (all_ok_encoded (fun p => In (error p) error_levels) s p Hok Hp).
Qed.

(** ** Further theorems at concrete inputs *)

Ltac settled_is_run :=
  refine (play_runs (E := sample_encoder) settled_moves []
            init settled_state runs_init _);
  vm_compute; reflexivity.

Ltac settled_is_reachable :=
  apply (runs_reachable (E := sample_encoder) [initial_request; typed_A]);
  settled_is_run.

Ltac writing_is_reachable :=
  apply (runs_reachable (E := sample_encoder) [initial_request]);
  refine (play_runs (E := sample_encoder) writing_moves []
            init writing_state runs_init _);
  vm_compute; reflexivity.

Lemma semaphore_binary_witness : semaphore settled_state <= 1.
Proof.
  apply (semaphore_binary settled_state). settled_is_reachable.
Defined.

Lemma mutual_exclusion_witness :
  worker_in_critical (wpc writing_state) = false.
Proof.
  apply (mutual_exclusion writing_state);
    [writing_is_reachable | reflexivity].
Defined.

Lemma no_deadlock_witness :
  (gui_step settled_state = None -> gpc settled_state <> G_idle ->
   exists s', worker_step settled_state = Some s')
  /\ (worker_step settled_state = None -> wpc settled_state = W_lock ->
      exists s', gui_step settled_state = Some s')
  /\ (quiescent settled_state ->
      gpc settled_state = G_idle
      /\ ((wpc settled_state = W_acquire /\ semaphore settled_state = 0)
          \/ exists e, wpc settled_state = W_dead e)).
Proof.
  apply (no_deadlock settled_state). settled_is_reachable.
Defined.

Lemma settles_within_witness :
  2 + potential released_state <= potential writing_state.
Proof.
  apply (settles_within 2 writing_state released_state).
  eapply internal_steps_S; [apply step_gui; vm_compute; reflexivity|].
  eapply internal_steps_S; [apply step_gui; vm_compute; reflexivity|].
  constructor.
Defined.

Lemma no_lost_wakeup_witness :
  (parameters writing_state <> None ->
   gui_signalling (gpc writing_state) = true
   \/ 1 <= semaphore writing_state
   \/ worker_taking (wpc writing_state) = true)
  /\ (quiescent writing_state -> wpc writing_state = W_acquire ->
      parameters writing_state = None).
Proof.
  apply (no_lost_wakeup writing_state). writing_is_reachable.
Defined.

Lemma consumed_subseq_witness :
  subseq (consumed settled_state ++ in_transit settled_state)
         [initial_request; typed_A]
  /\ subseq (consumed settled_state) [initial_request; typed_A]
  /\ length (consumed settled_state) <= length [initial_request; typed_A]
  /\ (forall p, In p (consumed settled_state) ->
                In p [initial_request; typed_A]).
Proof.
  apply (consumed_subseq [initial_request; typed_A] settled_state).
  settled_is_run.
Defined.

Lemma latest_consumed_witness :
  parameters settled_state = None
  /\ exists done,
       consumed settled_state = done ++ [typed_A]
       /\ delivered settled_state = outcomes (E := sample_encoder) done ++ outcomes [typed_A].
Proof.
  apply (latest_consumed [initial_request] typed_A settled_state).
  - settled_is_run.
  - split; reflexivity.
  - reflexivity.
Defined.

Lemma encoded_once_witness :
  consumed settled_state
  = encoded settled_state ++ awaiting_encoder (wpc settled_state).
Proof.
  apply (encoded_once settled_state). settled_is_reachable.
Defined.

Lemma rasterized_accepted_witness :
  map scale (filter (accepted (E := sample_encoder)) (encoded settled_state))
  = rasterized settled_state ++ awaiting_png (wpc settled_state).
Proof.
  apply (rasterized_accepted settled_state). settled_is_reachable.
Defined.

Lemma worker_death_witness :
  is_ValueError unpack_None = false
  /\ ((unpack_None = unpack_None /\ In (EvTake None) (trace raced_state))
      \/ exists p, In p (consumed raced_state)
                   /\ process (E := sample_encoder) p = inr unpack_None)
  /\ ((forall p, In p (consumed raced_state) -> outcome (E := sample_encoder) p <> None) ->
      unpack_None = unpack_None /\ In (EvTake None) (trace raced_state)).
Proof.
  apply (worker_death raced_state unpack_None); [|reflexivity].
  apply (app_reachable_core
           (apply_event (textEdited "A") init_ui, raced_state)).
  apply (run_schedule_reachable race_schedule app_init);
    [constructor | vm_compute; reflexivity].
Defined.

Lemma window_shows_latest_witness :
  display_after (delivered settled_state)
  = on_signal display_init
      (resultReady (E := sample_encoder) (repeat Byte.x00 5)).
Proof.
  apply (window_shows_latest [initial_request] typed_A settled_state).
  - settled_is_run.
  - split; reflexivity.
  - reflexivity.
  - reflexivity.
Defined.

Lemma set_parameters_waits_briefly_witness :
  (worker_in_critical (wpc settled_state) = false ->
   exists s',
     set_parameters too_long settled_state = Some s'
     /\ gpc s' = G_idle /\ parameters s' = Some too_long
     /\ semaphore s' = 1
     /\ wpc s' = wpc settled_state /\ trace s' = trace settled_state)
  /\ (worker_in_critical (wpc settled_state) = true ->
      set_parameters too_long settled_state = None
      /\ exists n s1 s',
           n <= 3 /\ worker_steps n settled_state = Some s1
           /\ set_parameters too_long s1 = Some s').
Proof.
  apply (set_parameters_waits_briefly settled_state too_long);
    [settled_is_reachable | reflexivity].
Defined.

Lemma error_domain_witness :
  error_levels = [Some "H"; Some "Q"; Some "M"; Some "L"]
  /\ error (request_new_qr_code init_ui) = Some "H"
  /\ In (error (request_new_qr_code (fst options_state))) error_levels
  /\ (forall i, i < 4 ->
        error (request_new_qr_code
                 (apply_event (error_correction_selected i)
                    (fst options_state)))
        = nth i error_levels None)
  /\ (forall p, In p (encoded (snd options_state)) ->
        In (error p) error_levels).
Proof.
  apply (error_domain (E := sample_encoder)
           (fst options_state) (snd options_state)).
  apply (run_schedule_reachable options_schedule app_init);
    [constructor | vm_compute; reflexivity].
Defined.

Lemma wake_discipline_without_race_witness :
  (1 <= semaphore settled_state -> parameters settled_state <> None)
  /\ ~ In (EvTake None) (trace settled_state)
  /\ (forall ret, wpc settled_state = W_unpack ret -> ret <> None)
  /\ (forall e, wpc settled_state = W_dead e ->
        exists p, In p (consumed settled_state) /\ process (E := sample_encoder) p = inr e).
Proof.
  apply (wake_discipline_without_race settled_state).
  apply (play_calm_reachable settled_moves init settled_state);
    [constructor | vm_compute; reflexivity].
Defined.

(** ** Delivery when the encoder breaks its contract *)

Lemma crashed_state_reachable : reachable crashed_state.
Proof.
  apply (runs_reachable (E := crashing_encoder) [typed_A]).
  refine (play_runs (E := crashing_encoder) ([MSubmit typed_A] ++ lone_moves)
            [] init crashed_state runs_init _).
  vm_compute; reflexivity.
Qed.


